(** * NexoWatt KNX adapter: address codec, import helpers and the
      store/bus synchronisation engine, embedded in Rocq.

    The embedding follows [src/lib/knx-utils.js], the flag aggregation of the
    ETS import module and [src/main.js].  JavaScript strings are sequences of
    UTF-16 code units, objects used as dictionaries are finite maps, and the
    adapter instance is a record threaded through every handler. *)

From Stdlib Require Import ZArith NArith QArith Ascii String List Lia.
From Stdlib Require Import Decimal DecimalN.
From stdpp Require Import base option list gmap.

Close Scope Q_scope.
Open Scope Z_scope.

(** ** JavaScript data *)

(** A string is its sequence of UTF-16 code units. *)
Abbreviation jsstr := (list N).

(** Code units of an ASCII literal. *)
Definition str (s : string) : jsstr :=
  List.map N_of_ascii (list_ascii_of_string s).

(** Numbers: the finite ones are carried as exact rationals; every finite
    double is one. *)
Inductive JsNum : Type :=
  | JNaN
  | JInf (negative : bool)
  | JFin (q : Q).

Inductive JsVal : Type :=
  | JUndefined
  | JNull
  | JBool (b : bool)
  | JNumber (n : JsNum)
  | JString (s : jsstr)
  | JDate (t : JsNum).

(** The parts of the host runtime whose exact output the adapter does not
    depend on: number formatting and parsing, date parsing and printing. *)
Class JsRuntime : Type := {
  number_to_string : Q -> jsstr;       (* String(x), x finite *)
  string_to_number : jsstr -> JsNum;   (* Number(s) *)
  date_parse : jsstr -> JsNum;         (* time value of new Date(s) *)
  date_to_string : JsNum -> jsstr      (* String(d) for a Date *)
}.

(** [Boolean(v)] *)
Definition truthy (v : JsVal) : bool :=
  match v with
  | JUndefined | JNull => false
  | JBool b => b
  | JNumber JNaN => false
  | JNumber (JInf _) => true
  | JNumber (JFin q) => negb (Qeq_bool q 0)
  | JString s => match s with [] => false | _ => true end
  | JDate _ => true
  end.

(** [String(v)] *)
Definition js_String {rt : JsRuntime} (v : JsVal) : jsstr :=
  match v with
  | JUndefined => str "undefined"
  | JNull => str "null"
  | JBool true => str "true"
  | JBool false => str "false"
  | JNumber JNaN => str "NaN"
  | JNumber (JInf false) => str "Infinity"
  | JNumber (JInf true) => str "-Infinity"
  | JNumber (JFin q) => number_to_string q
  | JString s => s
  | JDate t => date_to_string t
  end.

(** Truncation toward zero, then wrap-around to a signed 32-bit integer:
    the conversion every bitwise operator applies to its operands. *)
Definition truncQ (q : Q) : Z := Z.quot (Qnum q) (Z.pos (Qden q)).

Definition ToInt32 (q : Q) : Z :=
  let k := truncQ q mod 2 ^ 32 in
  if 2 ^ 31 <=? k then k - 2 ^ 32 else k.

(** Decimal digits of a natural number, as code units. *)
Fixpoint uint_codes (d : Decimal.uint) : jsstr :=
  match d with
  | Nil => []
  | D0 r => 48%N :: uint_codes r
  | D1 r => 49%N :: uint_codes r
  | D2 r => 50%N :: uint_codes r
  | D3 r => 51%N :: uint_codes r
  | D4 r => 52%N :: uint_codes r
  | D5 r => 53%N :: uint_codes r
  | D6 r => 54%N :: uint_codes r
  | D7 r => 55%N :: uint_codes r
  | D8 r => 56%N :: uint_codes r
  | D9 r => 57%N :: uint_codes r
  end.

(** Rendering of a non-negative integer inside a template literal. *)
Definition decimal (z : Z) : jsstr := uint_codes (N.to_uint (Z.to_N z)).

Definition slash : N := 47%N.

(** ** [src/lib/knx-utils.js] *)

Module KnxUtils.

Section WithRuntime.
Context {rt : JsRuntime}.

(** [groupAddressNumberToString(addr, style)] *)
Definition groupAddressNumberToString (addr : JsVal) (style : jsstr) : jsstr :=
  match addr with
  | JNumber (JFin q) =>
      let safe := Z.land (ToInt32 q) 0xffff in
      if decide (style = str "TwoLevel") then
        let main := Z.land (Z.shiftr safe 11) 0x1f in
        let sub := Z.land safe 0x7ff in
        decimal main ++ slash :: decimal sub
      else
        (* Default: ThreeLevel *)
        let main := Z.land (Z.shiftr safe 11) 0x1f in
        let middle := Z.land (Z.shiftr safe 8) 0x07 in
        let sub := Z.land safe 0xff in
        decimal main ++ slash :: decimal middle ++ slash :: decimal sub
  | _ => js_String addr
  end.

(** Character classes of the regular expressions used below. *)

(** [\s], which is also the set removed by [trim()]: WhiteSpace and
    LineTerminator code points. *)
Definition is_space (c : N) : bool :=
  ((9 <=? c) && (c <=? 13) || (c =? 32) || (c =? 160) || (c =? 5760)
   || (8192 <=? c) && (c <=? 8202) || (c =? 8232) || (c =? 8233)
   || (c =? 8239) || (c =? 8287) || (c =? 12288) || (c =? 65279))%N.

(** [\d] *)
Definition is_digit (c : N) : bool := ((48 <=? c) && (c <=? 57))%N.

Definition underscore : N := 95%N.
Definition dot_char : N := 46%N.
Definition hyphen : N := 45%N.

Definition is_underscore (c : N) : bool := (c =? underscore)%N.

(** [[A-Za-z0-9_\-]] *)
Definition is_safe (c : N) : bool :=
  ((65 <=? c) && (c <=? 90) || (97 <=? c) && (c <=? 122) || is_digit c
   || (c =? underscore) || (c =? hyphen))%N.

Fixpoint drop_while (p : N -> bool) (s : jsstr) : jsstr :=
  match s with
  | [] => []
  | c :: r => if p c then drop_while p r else s
  end.

Fixpoint take_while (p : N -> bool) (s : jsstr) : jsstr :=
  match s with
  | [] => []
  | c :: r => if p c then c :: take_while p r else []
  end.

(** Removes the matching characters at both ends. *)
Definition strip (p : N -> bool) (s : jsstr) : jsstr :=
  reverse (drop_while p (reverse (drop_while p s))).

(** [s.trim()] *)
Definition trim (s : jsstr) : jsstr := strip is_space s.

(** [s.replace(/X+/g, '_')]: every maximal run of characters of the class
    becomes one underscore.  A matching character emits the underscore when
    it closes its run. *)
Fixpoint replace_runs (p : N -> bool) (s : jsstr) : jsstr :=
  match s with
  | [] => []
  | c :: r =>
      if p c then
        match r with
        | [] => [underscore]
        | c' :: _ => if p c' then replace_runs p r else underscore :: replace_runs p r
        end
      else c :: replace_runs p r
  end.

(** No two underscores in a row. *)
Fixpoint no_double (s : jsstr) : bool :=
  match s with
  | c :: ((c' :: _) as r) => negb (is_underscore c && is_underscore c') && no_double r
  | _ => true
  end.

(** Replaces every character outside the safe set by an underscore. *)
Definition replace_unsafe (s : jsstr) : jsstr :=
  List.map (fun c => if is_safe c then c else underscore) s.

(** The chain of calls that computes [const s] in [sanitizeIdSegment]. *)
Definition sanitize_chain (name : jsstr) : jsstr :=
  strip is_underscore                     (* .replace(/^_+|_+$/g, '') *)
    (replace_runs is_underscore           (* .replace(/_+/g, '_') *)
      (replace_unsafe                     (* .replace(/[^A-Za-z0-9_\-]/g, '_') *)
        (replace_runs is_space            (* .replace(/\s+/g, '_') *)
          (trim name)))).

(** [sanitizeIdSegment(name)] *)
Definition sanitizeIdSegment (name : JsVal) : jsstr :=
  match name with
  | JString name =>
      match sanitize_chain name with
      | [] => str "unnamed"               (* s || 'unnamed' *)
      | s => s
      end
  | _ => str "unnamed"
  end.

(** Value of a digit string read in base ten. *)
Definition digits_value (s : jsstr) : N :=
  fold_left (fun acc c => (acc * 10 + (c - 48))%N) s 0%N.

(** First integer that [parseInt] rounds to [Infinity]. *)
Definition overflow_threshold : N := (2 ^ 1024 - 2 ^ 970)%N.

(** [dptMajor(dpt)].  The pattern is [/^(\d+)(?:\.(\d+))?$/].  The result is
    the exact integer; the program holds its nearest double, and only ever
    compares it with 1, 16 and 19. *)
Definition dptMajor (dpt : option jsstr) : option N :=
  match dpt with
  | None | Some [] => None
  | Some dpt =>
      let t := trim dpt in
      let major := take_while is_digit t in
      let rest := drop_while is_digit t in
      let shape_ok :=
        match major, rest with
        | [], _ => false
        | _, [] => true
        | _, c :: minor =>
            (c =? 46)%N && forallb is_digit minor
            && match minor with [] => false | _ => true end
        end in
      if shape_ok then
        let v := digits_value major in
        if (v <? overflow_threshold)%N then Some v else None
      else None
  end.

(** [/^\d+(?:\.\d+)?$/.test(s)] *)
Definition numeric_shape (s : jsstr) : bool :=
  match take_while is_digit s, drop_while is_digit s with
  | [], _ => false
  | _, [] => true
  | _, c :: minor =>
      (c =? 46)%N && forallb is_digit minor
      && match minor with [] => false | _ => true end
  end.

(** [/^\d+$/.test(s)] *)
Definition all_digits (s : jsstr) : bool :=
  match s with
  | [] => false
  | _ => forallb is_digit s
  end.

(** The rest of [s] behind the literal [p], when [s] begins with it. *)
Fixpoint after_prefix (p s : jsstr) {struct p} : option jsstr :=
  match p, s with
  | [], _ => Some s
  | _ :: _, [] => None
  | x :: p', y :: s' => if (x =? y)%N then after_prefix p' s' else None
  end.

(** [String(parseInt(d, 10))] for a digit string [d].  Below 2^53 the
    integer is held exactly and printed digit by digit; above, the result is
    the runtime's rounding and formatting of the number. *)
Definition int_string (d : jsstr) : jsstr :=
  let v := digits_value d in
  if (v <? 2 ^ 53)%N then decimal (Z.of_N v)
  else js_String (JNumber (string_to_number d)).

(** [s.padStart(3, '0')] *)
Definition padStart3 (s : jsstr) : jsstr :=
  replicate (3 - length s) 48%N ++ s.

(** [etsDptToKnxDpt(etsId)]; [None] is [undefined], as argument (or any
    value that is not a string) and as result. *)
Definition etsDptToKnxDpt (etsId : option jsstr) : option jsstr :=
  match etsId with
  | None | Some [] => None
  | Some etsId =>
      let s := trim etsId in
      match s with
      | [] => None
      | _ =>
          (* already numeric format *)
          if numeric_shape s then Some s
          else
            (* DPT-n *)
            match after_prefix (str "DPT-") s with
            | Some d =>
                (* a string that begins with DPT- cannot match the DPST pattern *)
                if all_digits d then Some (int_string d) else None
            | None =>
                (* DPST-n-n1 *)
                match after_prefix (str "DPST-") s with
                | Some r =>
                    let major := take_while is_digit r in
                    match major, drop_while is_digit r with
                    | _ :: _, c :: minor =>
                        if (c =? hyphen)%N && all_digits minor then
                          Some (int_string major ++ dot_char :: padStart3 (int_string minor))
                        else None
                    | _, _ => None
                    end
                | None => None
                end
            end
      end
  end.

(** The store-side value type and role derived from a type code. *)
Record CommonBase : Type := { cb_type : jsstr; cb_role : jsstr }.

(** [inferCommonFromDpt(dpt)] *)
Definition inferCommonFromDpt (dpt : option jsstr) : CommonBase :=
  match dptMajor dpt with
  | Some 1%N => {| cb_type := str "boolean"; cb_role := str "switch" |}
  | Some 16%N => {| cb_type := str "string"; cb_role := str "text" |}
  | Some 19%N => {| cb_type := str "string"; cb_role := str "date" |}
  | _ => {| cb_type := str "number"; cb_role := str "value" |}
  end.

(** [toLowerCase()] on the ASCII range; the tokens it is compared with are
    ASCII, and no other code unit lower-cases to one of their letters. *)
Definition to_lower (s : jsstr) : jsstr :=
  List.map (fun c => if ((65 <=? c) && (c <=? 90))%N then (c + 32)%N else c) s.

(** [list.includes(v)] *)
Definition includes (l : list jsstr) (v : jsstr) : bool :=
  bool_decide (v ∈ l).

(** Time value of [new Date(x)] for a number [x]. *)
Definition time_clip (n : JsNum) : JsNum :=
  match n with
  | JFin q =>
      let t := truncQ q in
      if Z.abs t <=? 8640000000000000 then JFin (inject_Z t) else JNaN
  | _ => JNaN
  end.

Definition is_finite (n : JsNum) : bool :=
  match n with JFin _ => true | _ => false end.

(** [coerceToKnxValue(val, dpt)]; [now] is the clock reading a [new Date()]
    made during the call returns. *)
Definition coerceToKnxValue (now : JsNum) (val : JsVal) (dpt : option jsstr) : JsVal :=
  match dptMajor dpt with
  | Some 1%N =>
      (* bool *)
      match val with
      | JBool _ => val
      | JNumber (JFin q) => JBool (negb (Qeq_bool q 0))
      | JNumber _ => JBool true
      | JString s =>
          let v := to_lower (trim s) in
          if includes [str "1"; str "true"; str "on"; str "yes"] v then JBool true
          else if includes [str "0"; str "false"; str "off"; str "no"] v then JBool false
          else JBool (truthy val)
      | _ => JBool (truthy val)
      end
  | Some 16%N =>
      (* text *)
      match val with
      | JNull | JUndefined => JString []
      | _ => JString (js_String val)
      end
  | Some 19%N =>
      (* date/time *)
      match val with
      | JDate _ => val
      | JNumber n => JDate (time_clip n)
      | JString s =>
          let d := date_parse s in
          if is_finite d then JDate d else JDate now
      | _ => JDate now
      end
  | _ =>
      (* numeric *)
      match val with
      | JNumber _ => val
      | JBool b => JNumber (JFin (if b then 1%Q else 0%Q))
      | JString s =>
          let n := string_to_number s in
          if is_finite n then JNumber n else JNumber (JFin 0%Q)
      | _ => JNumber (JFin 0%Q)
      end
  end.

End WithRuntime.

End KnxUtils.

(** Access flags of a group address: four independent booleans. *)
Record AccessFlags : Type := {
  readFlag : bool;
  writeFlag : bool;
  transmitFlag : bool;
  updateFlag : bool
}.

(** ** Flag aggregation of the ETS import ([buildFlagsByGroupAddressId]) *)

Module EtsImport.

(** The parsed project, as far as the aggregation reads it.  A field the
    source reads through [?.] and [|| []] is a list here, empty when the
    property is missing; a [null] element of a list behaves as a record whose
    properties are all missing. *)

(** A send or receive target; [None] is a missing property. *)
Record Target : Type := {
  groupAddressRefID : option jsstr;
  groupAddressRedID : option jsstr
}.

Record Connector : Type := {
  send : list Target;
  receive : list Target
}.

Record ComObjRef : Type := {
  isActive : JsVal;
  cor_readFlag : JsVal;
  cor_writeFlag : JsVal;
  cor_transmitFlag : JsVal;
  cor_updateFlag : JsVal;
  connectors : list Connector
}.

Record Device : Type := { communicationObjectReferences : list ComObjRef }.
Record Line : Type := { devices : list Device }.
Record Area : Type := { lines : list Line }.

(** [result.topology.areas] *)
Record Project : Type := { areas : list Area }.

Definition no_flags : AccessFlags :=
  {| readFlag := false; writeFlag := false; transmitFlag := false; updateFlag := false |}.

(** [a || b] on identifiers: the empty string and a missing property are
    falsy. *)
Definition id_or (a b : option jsstr) : option jsstr :=
  match a with
  | Some (_ :: _) => a
  | _ => b
  end.

(** The body shared by the send and the receive loop:
    [agg = map.get(gaId) || {all false}; agg.x ||= flags.x; map.set(gaId, agg)],
    skipped when [gaId] is falsy. *)
Definition merge_target (flags : AccessFlags) (map : gmap jsstr AccessFlags)
    (gaId : option jsstr) : gmap jsstr AccessFlags :=
  match gaId with
  | Some ((_ :: _) as gaId) =>
      let agg := default no_flags (map !! gaId) in
      <[gaId := {| readFlag := readFlag agg || readFlag flags;
                   writeFlag := writeFlag agg || writeFlag flags;
                   transmitFlag := transmitFlag agg || transmitFlag flags;
                   updateFlag := updateFlag agg || updateFlag flags |}]> map
  | _ => map
  end.

Definition visit_send (flags : AccessFlags) (map : gmap jsstr AccessFlags)
    (s : Target) : gmap jsstr AccessFlags :=
  merge_target flags map (groupAddressRefID s).

Definition visit_receive (flags : AccessFlags) (map : gmap jsstr AccessFlags)
    (r : Target) : gmap jsstr AccessFlags :=
  merge_target flags map (id_or (groupAddressRefID r) (groupAddressRedID r)).

Definition visit_connector (flags : AccessFlags) (map : gmap jsstr AccessFlags)
    (conn : Connector) : gmap jsstr AccessFlags :=
  foldl (visit_receive flags) (foldl (visit_send flags) map (send conn)) (receive conn).

(** [cor.isActive === false] *)
Definition explicitly_inactive (cor : ComObjRef) : bool :=
  match isActive cor with
  | JBool false => true
  | _ => false
  end.

Definition cor_flags (cor : ComObjRef) : AccessFlags :=
  {| readFlag := truthy (cor_readFlag cor);
     writeFlag := truthy (cor_writeFlag cor);
     transmitFlag := truthy (cor_transmitFlag cor);
     updateFlag := truthy (cor_updateFlag cor) |}.

(** One iteration of the loop over communication-object references. *)
Definition visit_cor (map : gmap jsstr AccessFlags) (cor : ComObjRef)
    : gmap jsstr AccessFlags :=
  if explicitly_inactive cor then map
  else foldl (visit_connector (cor_flags cor)) map (connectors cor).

Definition visit_device (map : gmap jsstr AccessFlags) (device : Device) :=
  foldl visit_cor map (communicationObjectReferences device).

Definition visit_line (map : gmap jsstr AccessFlags) (line : Line) :=
  foldl visit_device map (devices line).

Definition visit_area (map : gmap jsstr AccessFlags) (area : Area) :=
  foldl visit_line map (lines area).

(** [buildFlagsByGroupAddressId(result)] *)
Definition buildFlagsByGroupAddressId (result : Project) : gmap jsstr AccessFlags :=
  foldl visit_area ∅ (areas result).

(** The references of a project in the order the loops reach them. *)
Definition references (result : Project) : list ComObjRef :=
  a ← areas result; l ← lines a; d ← devices l; communicationObjectReferences d.

(** A flag record never loses a flag that is set: field by field, [true]
    stays [true]. *)
Definition flags_le (f g : AccessFlags) : Prop :=
  (readFlag f = true -> readFlag g = true)
  /\ (writeFlag f = true -> writeFlag g = true)
  /\ (transmitFlag f = true -> transmitFlag g = true)
  /\ (updateFlag f = true -> updateFlag g = true).

(** Every identifier of the first map is in the second one, with flags that
    lost nothing. *)
Definition map_le (m m' : gmap jsstr AccessFlags) : Prop :=
  forall gaId f, m !! gaId = Some f -> exists g, m' !! gaId = Some g /\ flags_le f g.

(** The four flags by name. *)
Inductive FlagName : Type := Read | Write | Transmit | Update.

Definition flag (n : FlagName) (f : AccessFlags) : bool :=
  match n with
  | Read => readFlag f
  | Write => writeFlag f
  | Transmit => transmitFlag f
  | Update => updateFlag f
  end.

Definition cor_flag (n : FlagName) (cor : ComObjRef) : JsVal :=
  match n with
  | Read => cor_readFlag cor
  | Write => cor_writeFlag cor
  | Transmit => cor_transmitFlag cor
  | Update => cor_updateFlag cor
  end.

(** The back-references of a connector, then of a reference, in the order
    the loops read them: the send targets, then the receive targets. *)
Definition connector_ids (conn : Connector) : list (option jsstr) :=
  (groupAddressRefID <$> send conn)
  ++ ((fun r => id_or (groupAddressRefID r) (groupAddressRedID r)) <$> receive conn).

Definition cor_ids (cor : ComObjRef) : list (option jsstr) :=
  connectors cor ≫= connector_ids.

(** The reference is not disabled and one of its targets names [gaId]. *)
Definition refers (cor : ComObjRef) (gaId : jsstr) : Prop :=
  explicitly_inactive cor = false /\ gaId <> [] /\ Some gaId ∈ cor_ids cor.

(** The map has a record for [gaId] with the flag set. *)
Definition has_flag (m : gmap jsstr AccessFlags) (gaId : jsstr) (n : FlagName) : Prop :=
  exists f, m !! gaId = Some f /\ flag n f = true.

End EtsImport.

(** ** The adapter ([src/main.js]) *)

Module Adapter.

(** Runtime projection of a persisted entry ([metaByStateId] values). *)
Record Meta : Type := {
  ga : jsstr;
  dpt : option jsstr;
  flags : AccessFlags
}.

(** A bus-side datapoint object, identified by what its constructor got. *)
Record Datapoint : Type := {
  dp_ga : jsstr;
  dp_dpt : option jsstr
}.

(** The two closures the adapter ever queues:
    [() => dp.write(value)] and [() => dp.read()]. *)
Inductive TxAction : Type :=
  | DpWrite (dp : Datapoint) (value : JsVal)
  | DpRead (dp : Datapoint).

Record TxJob : Type := {
  fn : TxAction;
  descr : jsstr
}.

(** A thrown value: its [message] property and its [String()] rendering. *)
Record Exn : Type := {
  message : option jsstr;
  rendered : jsstr
}.

(** The bus transport: a datapoint operation changes the transport's state
    and may throw. *)
Class Transport : Type := {
  Bus : Type;
  dp_write : Datapoint -> JsVal -> Bus -> Bus * option Exn;
  dp_read : Datapoint -> Bus -> Bus * option Exn
}.

(** A tagged value of the state store. *)
Record StateValue : Type := {
  val : JsVal;
  ack : bool
}.

(** Persisted objects.  Properties of [native] are read back defensively, so
    they are arbitrary values there; [None] is a missing [flags] object. *)
Record RawFlags : Type := {
  raw_readFlag : JsVal;
  raw_writeFlag : JsVal;
  raw_transmitFlag : JsVal;
  raw_updateFlag : JsVal
}.

Record Native : Type := {
  n_ga : JsVal;
  n_dpt : JsVal;
  n_flags : option RawFlags;
  n_description : JsVal
}.

Record Common : Type := {
  c_name : jsstr;
  c_type : jsstr;
  c_role : jsstr;
  c_read : bool;
  c_write : bool
}.

Record Obj : Type := {
  obj_type : jsstr;
  common : Common;
  native : option Native
}.

(** One row of an object-view answer: [row.id] and [row.doc]. *)
Record ViewRow : Type := {
  row_id : jsstr;
  doc : option Obj
}.

(** One row of the flattened import result, or a manual datapoint. *)
Record ImportEntry : Type := {
  id : jsstr;
  name : jsstr;
  description : option jsstr;
  entry_ga : jsstr;
  entry_dpt : option jsstr;
  entry_flags : option AccessFlags
}.

Inductive LogLevel : Type := Debug | Info | Warn | Error.

Record Config : Type := {
  ackOnWrite : bool
}.

Section WithHost.
Context {rt : JsRuntime} {tp : Transport}.

(** The adapter instance together with the collaborators it acts on: the
    host's object and state stores, the transport and the log. *)
Record Adapter : Type := {
  namespace : jsstr;
  config : Config;
  knxConnected : bool;
  datapointsByStateId : gmap jsstr Datapoint;
  metaByStateId : gmap jsstr Meta;
  txQueue : list TxJob;
  objects : gmap jsstr Obj;
  states : gmap jsstr StateValue;
  bus : Bus;
  log : list (LogLevel * jsstr)
}.

Definition set_metaByStateId (m : gmap jsstr Meta) (a : Adapter) : Adapter :=
  {| namespace := namespace a; config := config a; knxConnected := knxConnected a;
     datapointsByStateId := datapointsByStateId a; metaByStateId := m;
     txQueue := txQueue a; objects := objects a; states := states a;
     bus := bus a; log := log a |}.

Definition set_txQueue (q : list TxJob) (a : Adapter) : Adapter :=
  {| namespace := namespace a; config := config a; knxConnected := knxConnected a;
     datapointsByStateId := datapointsByStateId a; metaByStateId := metaByStateId a;
     txQueue := q; objects := objects a; states := states a;
     bus := bus a; log := log a |}.

Definition set_objects (o : gmap jsstr Obj) (a : Adapter) : Adapter :=
  {| namespace := namespace a; config := config a; knxConnected := knxConnected a;
     datapointsByStateId := datapointsByStateId a; metaByStateId := metaByStateId a;
     txQueue := txQueue a; objects := o; states := states a;
     bus := bus a; log := log a |}.

Definition set_states (s : gmap jsstr StateValue) (a : Adapter) : Adapter :=
  {| namespace := namespace a; config := config a; knxConnected := knxConnected a;
     datapointsByStateId := datapointsByStateId a; metaByStateId := metaByStateId a;
     txQueue := txQueue a; objects := objects a; states := s;
     bus := bus a; log := log a |}.

Definition set_bus (b : Bus) (a : Adapter) : Adapter :=
  {| namespace := namespace a; config := config a; knxConnected := knxConnected a;
     datapointsByStateId := datapointsByStateId a; metaByStateId := metaByStateId a;
     txQueue := txQueue a; objects := objects a; states := states a;
     bus := b; log := log a |}.

(** [this.log.<level>(text)] *)
Definition log_line (level : LogLevel) (text : jsstr) (a : Adapter) : Adapter :=
  {| namespace := namespace a; config := config a; knxConnected := knxConnected a;
     datapointsByStateId := datapointsByStateId a; metaByStateId := metaByStateId a;
     txQueue := txQueue a; objects := objects a; states := states a;
     bus := bus a; log := log a ++ [(level, text)] |}.

(** *** The host's stores, as the adapter uses them *)

(** [setStateAsync(id, val, ack)] *)
Definition setState (k : jsstr) (v : JsVal) (acked : bool) (a : Adapter) : Adapter :=
  set_states (<[k := {| val := v; ack := acked |}]> (states a)) a.

(** [setObjectNotExistsAsync(id, obj)]: create-if-absent. *)
Definition setObjectNotExists (k : jsstr) (o : Obj) (a : Adapter) : Adapter :=
  match objects a !! k with
  | Some _ => a
  | None => set_objects (<[k := o]> (objects a)) a
  end.

(** A property that is [undefined] in a patch does not reach the store. *)
Definition patch_val (old new : JsVal) : JsVal :=
  match new with
  | JUndefined => old
  | _ => new
  end.

Definition patch_native (old : option Native) (new : Native) : Native :=
  match old with
  | None => new
  | Some old =>
      {| n_ga := patch_val (n_ga old) (n_ga new);
         n_dpt := patch_val (n_dpt old) (n_dpt new);
         n_flags := match n_flags new with Some f => Some f | None => n_flags old end;
         n_description := patch_val (n_description old) (n_description new) |}
  end.

(** [extendObjectAsync(id, {common, native})]: the given properties replace
    the stored ones, the others stay.  The adapter always passes every
    property of [common] that this model tracks. *)
Definition extendObject (k : jsstr) (c : Common) (n : Native) (a : Adapter) : Adapter :=
  match objects a !! k with
  | Some old =>
      set_objects (<[k := {| obj_type := obj_type old; common := c;
                             native := Some (patch_native (native old) n) |}]> (objects a)) a
  | None =>
      set_objects (<[k := {| obj_type := []; common := c; native := Some n |}]> (objects a)) a
  end.

(** *** Mapping / objects *)

Definition flag_of (f : option AccessFlags) (get : AccessFlags -> bool) : bool :=
  match f with
  | Some f => get f
  | None => false
  end.

Definition opt_val (s : option jsstr) : JsVal :=
  match s with
  | Some s => JString s
  | None => JUndefined
  end.

(** [upsertGaState(entry)] *)
Definition upsertGaState (entry : ImportEntry) (a : Adapter) : Adapter :=
  let commonBase := KnxUtils.inferCommonFromDpt (entry_dpt entry) in
  let writeAllowed :=
    flag_of (entry_flags entry) writeFlag || flag_of (entry_flags entry) readFlag in
  let common :=
    {| c_name := name entry;
       c_type := KnxUtils.cb_type commonBase;
       c_role := KnxUtils.cb_role commonBase;
       c_read := true;
       c_write := writeAllowed |} in
  let native :=
    {| n_ga := JString (entry_ga entry);
       n_dpt := opt_val (entry_dpt entry);
       n_flags := Some {| raw_readFlag := JBool (flag_of (entry_flags entry) readFlag);
                          raw_writeFlag := JBool (flag_of (entry_flags entry) writeFlag);
                          raw_transmitFlag := JBool (flag_of (entry_flags entry) transmitFlag);
                          raw_updateFlag := JBool (flag_of (entry_flags entry) updateFlag) |};
       n_description := opt_val (description entry) |} in
  let a := setObjectNotExists (id entry)
             {| obj_type := str "state"; common := common; native := Some native |} a in
  (* Keep existing states but update metadata (name/dpt/flags) on import *)
  extendObject (id entry) common native a.

(** [s.startsWith(p)] *)
Fixpoint startsWith (s p : jsstr) {struct p} : bool :=
  match p, s with
  | [], _ => true
  | _ :: _, [] => false
  | x :: p', y :: s' => (x =? y)%N && startsWith s' p'
  end.

Definition dot : N := 46%N.

Definition empty_native : Native :=
  {| n_ga := JUndefined; n_dpt := JUndefined; n_flags := None; n_description := JUndefined |}.

Definition empty_flags : RawFlags :=
  {| raw_readFlag := JUndefined; raw_writeFlag := JUndefined;
     raw_transmitFlag := JUndefined; raw_updateFlag := JUndefined |}.

(** [native.flags || {}] and [native.ga] of a scanned object, where
    [native] is [obj.native || {}]. *)
Definition raw_flags_of (obj : Obj) : RawFlags :=
  default empty_flags (n_flags (default empty_native (native obj))).

Definition recorded_ga (obj : Obj) : JsVal :=
  n_ga (default empty_native (native obj)).

(** What one scanned row adds to the mapping: its relative identifier and
    its record, or nothing when the loop body hits a [continue]. *)
Definition row_record (ns : jsstr) (row : ViewRow) : option (jsstr * Meta) :=
  match doc row with
  | None => None
  | Some obj =>
      if negb (bool_decide (obj_type obj = str "state")) then None
      else
        let native := default empty_native (native obj) in
        let ga := recorded_ga obj in
        if negb (truthy ga) then None
        else
          let idFull := row_id row in
          let idRel :=
            if startsWith idFull (ns ++ [dot]) then drop (length ns + 1) idFull
            else idFull in
          let flags := raw_flags_of obj in
          Some (idRel,
                {| ga := js_String ga;
                   dpt := if truthy (n_dpt native) then Some (js_String (n_dpt native))
                          else None;
                   flags :=
                     {| readFlag := truthy (raw_readFlag flags);
                        writeFlag := truthy (raw_writeFlag flags);
                        transmitFlag :=
                          match raw_transmitFlag flags with
                          | JUndefined => true
                          | v => truthy v
                          end;
                        updateFlag := truthy (raw_updateFlag flags) |} |})
  end.

Definition scan_row (ns : jsstr) (m : gmap jsstr Meta) (row : ViewRow) : gmap jsstr Meta :=
  match row_record ns row with
  | Some (idRel, meta) => <[idRel := meta]> m
  | None => m
  end.

(** [rebuildRuntimeMapping()]; [res] is the answer of the object-view query
    over the [ga.] key range, [None] when the host returns nothing. *)
Definition rebuildRuntimeMapping (res : option (list ViewRow)) (a : Adapter) : Adapter :=
  let rows := default [] res in
  let m := foldl (scan_row (namespace a)) ∅ rows in
  log_line Info
    (str "Runtime mapping loaded: " ++ decimal (Z.of_nat (size m)) ++ str " datapoints.")
    (set_metaByStateId m a).

(** *** The transmit queue *)

(** [enqueueKnx(fn, descr)] *)
Definition enqueueKnx (fn : TxAction) (descr : jsstr) (a : Adapter) : Adapter :=
  set_txQueue (txQueue a ++ [{| fn := fn; descr := match descr with [] => str "tx" | _ => descr end |}]) a.

(** How a handler finishes: it returns, or an exception leaves it. *)
Inductive Outcome : Type :=
  | Returned
  | Thrown (e : Exn).

(** What a queued closure does to the transport. *)
Definition perform (f : TxAction) (b : Bus) : Bus * option Exn :=
  match f with
  | DpWrite dp value => dp_write dp value b
  | DpRead dp => dp_read dp b
  end.

(** Calling a queued closure: [job.fn()]. *)
Definition call (f : TxAction) (a : Adapter) : Outcome * Adapter :=
  let '(b, r) := perform f (bus a) in
  (match r with Some e => Thrown e | None => Returned end, set_bus b a).

(** [try { body } catch (e) { handler }] *)
Definition try_catch (body : Adapter -> Outcome * Adapter)
    (handler : Exn -> Adapter -> Outcome * Adapter) (a : Adapter) : Outcome * Adapter :=
  match body a with
  | (Returned, a') => (Returned, a')
  | (Thrown e, a') => handler e a'
  end.

(** [e?.message || e] inside a template literal. *)
Definition exn_text (e : Exn) : jsstr :=
  match message e with
  | Some ((_ :: _) as m) => m
  | _ => rendered e
  end.

(** The callback [startTxQueue] hands to [setInterval]: one timer tick. *)
Definition tick (a : Adapter) : Outcome * Adapter :=
  if negb (knxConnected a) then (Returned, a)
  else
    match txQueue a with
    | [] => (Returned, a)
    | job :: rest =>
        try_catch
          (call (fn job))
          (fun e a' =>
             (Returned,
              log_line Warn
                (str "KNX TX failed (" ++ descr job ++ str "): " ++ exn_text e) a'))
          (set_txQueue rest a)
    end.

(** *** ioBroker -> KNX writes *)

(** [onStateChange(idFull, state)]; [state] is [None] for a deleted state,
    [now] is the clock reading during the call. *)
Definition onStateChange (now : JsNum) (idFull : jsstr) (state : option StateValue)
    (a : Adapter) : Adapter :=
  match state with
  | None => a
  | Some state =>
      if ack state then a
      else
        let prefix := namespace a ++ [dot] in
        if negb (startsWith idFull prefix) then a
        else
          let idRel := drop (length prefix) idFull in
          if negb (startsWith idRel (str "ga.")) then a
          else
            match metaByStateId a !! idRel, datapointsByStateId a !! idRel with
            | Some meta, Some dp =>
                let reack (a : Adapter) :=
                  if ackOnWrite (config a) then setState idRel (val state) true a else a in
                if writeFlag (flags meta) then
                  (* Write *)
                  let value := KnxUtils.coerceToKnxValue now (val state) (dpt meta) in
                  reack (enqueueKnx (DpWrite dp value) (str "write " ++ ga meta) a)
                else if readFlag (flags meta) then
                  (* Read trigger *)
                  reack (enqueueKnx (DpRead dp) (str "read " ++ ga meta) a)
                else
                  reack
                    (log_line Debug
                       (str "State not writeable/readable by flags: " ++ idRel
                        ++ str " (" ++ ga meta ++ str ")") a)
            | _, _ =>
                log_line Debug (str "State change ignored (no mapping): " ++ idRel) a
            end
  end.

End WithHost.

End Adapter.

(** ** Reading a rendered address back

    The program only renders addresses.  To state that a rendering determines
    its address, this is the reader for the two slash-separated layouts:
    5 bits main and 11 bits sub, or 5 bits main, 3 bits middle, 8 bits sub. *)

Module Codec.

(** [s.split(sep)] for a one-character separator. *)
Fixpoint split_on (sep : N) (s : jsstr) : list jsstr :=
  match s with
  | [] => [[]]
  | c :: r =>
      if (c =? sep)%N then [] :: split_on sep r
      else
        match split_on sep r with
        | [] => [[c]]
        | h :: t => (c :: h) :: t
        end
  end.

Fixpoint codes_uint (s : jsstr) : option Decimal.uint :=
  match s with
  | [] => Some Nil
  | c :: r =>
      d ← codes_uint r;
      match c with
      | 48 => Some (D0 d) | 49 => Some (D1 d) | 50 => Some (D2 d)
      | 51 => Some (D3 d) | 52 => Some (D4 d) | 53 => Some (D5 d)
      | 54 => Some (D6 d) | 55 => Some (D7 d) | 56 => Some (D8 d)
      | 57 => Some (D9 d)
      | _ => None
      end%N
  end.

(** A non-empty digit string as a number. *)
Definition parse_decimal (s : jsstr) : option Z :=
  match s with
  | [] => None
  | _ => d ← codes_uint s; Some (Z.of_N (N.of_uint d))
  end.

Definition decodeAddress (style : jsstr) (s : jsstr) : option Z :=
  if decide (style = str "TwoLevel") then
    match split_on slash s with
    | [m; u] =>
        main ← parse_decimal m; sub ← parse_decimal u;
        Some (Z.lor (Z.shiftl main 11) sub)
    | _ => None
    end
  else
    match split_on slash s with
    | [m; i; u] =>
        main ← parse_decimal m; middle ← parse_decimal i; sub ← parse_decimal u;
        Some (Z.lor (Z.lor (Z.shiftl main 11) (Z.shiftl middle 8)) sub)
    | _ => None
    end.

(** An address given as a JavaScript number. *)
Definition address (a : Z) : JsVal := JNumber (JFin (inject_Z a)).

End Codec.

(** ** The group-address tree and the entries made from it

    [walkGroupRanges] and the last part of [importEtsProject] (from the
    parsed project to the entry list), then the adapter's loops that turn
    entries into objects: [ensureChannelsForState], the loop of
    [doImportEtsProject] and [applyManualDatapoints]. *)

Module ProjectImport.

(** A group-address leaf of the parsed project. *)
Record GroupAddress : Type := {
  address : JsVal;
  datapointType : option jsstr;
  ID : option jsstr;
  ga_name : option jsstr;
  ga_description : option jsstr
}.

(** A group range: a name, nested ranges and leaves.  The two arrays are
    lists, empty when the property is not an array. *)
#[local] Unset Elimination Schemes.
Inductive GroupRange : Type :=
  | mkGroupRange (name : option jsstr) (groupRanges : list GroupRange)
                 (groupAddresses : list GroupAddress).
#[local] Set Elimination Schemes.

(** One element pushed to [out]. *)
Record Collected : Type := {
  groupRangePath : list jsstr;
  groupAddress : GroupAddress
}.

(** [nextPath]: a copy of the path, extended by the range's name when it has
    one. *)
Definition next_path (name : option jsstr) (pathSegments : list jsstr) : list jsstr :=
  match name with
  | Some ((_ :: _) as n) => pathSegments ++ [n]
  | _ => pathSegments
  end.

(** One iteration of the loop of [walkGroupRanges]; the inner [fix] is the
    recursive call on [gr.groupRanges]. *)
Fixpoint walkGroupRange (gr : GroupRange) (pathSegments : list jsstr)
    (out : list Collected) : list Collected :=
  match gr with
  | mkGroupRange name groupRanges groupAddresses =>
      let nextPath := next_path name pathSegments in
      (* nested ranges *)
      let out :=
        (fix walk (rs : list GroupRange) (out : list Collected) : list Collected :=
           match rs with
           | [] => out
           | r :: rs' => walk rs' (walkGroupRange r nextPath out)
           end) groupRanges out in
      (* group addresses *)
      out ++ ((fun ga => {| groupRangePath := nextPath; groupAddress := ga |})
                <$> groupAddresses)
  end.

(** [walkGroupRanges(groupRanges, pathSegments, out)]; the result is [out]
    after the call. *)
Definition walkGroupRanges (groupRanges : list GroupRange) (pathSegments : list jsstr)
    (out : list Collected) : list Collected :=
  foldl (fun out gr => walkGroupRange gr pathSegments out) out groupRanges.

(** A collected pair with its path put behind [p]. *)
Definition under (p : list jsstr) (c : Collected) : Collected :=
  {| groupRangePath := p ++ groupRangePath c; groupAddress := groupAddress c |}.

(** Number of leaves below a list of ranges. *)
Fixpoint count_range (gr : GroupRange) : nat :=
  match gr with
  | mkGroupRange _ groupRanges groupAddresses =>
      (fix count (rs : list GroupRange) : nat :=
         match rs with
         | [] => 0
         | r :: rs' => count_range r + count rs'
         end) groupRanges + length groupAddresses
  end%nat.

Definition count_ranges (rs : list GroupRange) : nat :=
  foldr (fun r n => (count_range r + n)%nat) 0%nat rs.

(** [parts.join('.')] *)
Fixpoint join (parts : list jsstr) : jsstr :=
  match parts with
  | [] => []
  | p :: rest =>
      match rest with
      | [] => p
      | _ => p ++ Adapter.dot :: join rest
      end
  end.

(** [s.replace(/\//g, '_')] *)
Definition replace_slashes (s : jsstr) : jsstr :=
  (fun c => if (c =? slash)%N then KnxUtils.underscore else c) <$> s.

(** A string in the final form of a segment: not empty, safe characters
    only, no two underscores in a row and none at either end. *)
Definition plain_segment (x : jsstr) : Prop :=
  x <> []
  /\ Forall (fun c => KnxUtils.is_safe c = true) x
  /\ KnxUtils.no_double x = true
  /\ (forall c, head x = Some c -> KnxUtils.is_underscore c = false)
  /\ (forall c, last x = Some c -> KnxUtils.is_underscore c = false).

Definition nonempty (s : jsstr) : bool :=
  match s with [] => false | _ => true end.

(** The identifier of an entry:
    [['ga', ...path.map(sanitizeIdSegment), gaSeg].filter(Boolean).join('.')] *)
Definition entry_id (path : list jsstr) (gaStr : jsstr) : jsstr :=
  let segs := str "ga" :: ((fun p => KnxUtils.sanitizeIdSegment (JString p)) <$> path) in
  let gaSeg := KnxUtils.sanitizeIdSegment (JString (replace_slashes gaStr)) in
  join (List.filter nonempty (segs ++ [gaSeg])).

(** Flags of a group address no communication object refers to. *)
Definition default_flags : AccessFlags :=
  {| readFlag := false; writeFlag := false; transmitFlag := true; updateFlag := false |}.

(** [a || b] for an optional string and a string. *)
Definition or_else (a : option jsstr) (b : jsstr) : jsstr :=
  match a with
  | Some ((_ :: _) as a) => a
  | _ => b
  end.

(** The parsed project as [importEtsProject] reads it. *)
Record ParsedProject : Type := {
  groupAddressStyle : option jsstr;
  topology : EtsImport.Project;
  roots : list (list GroupRange)     (* result.groupAddresses[i].groupRanges *)
}.

Section WithRuntime.
Context {rt : JsRuntime}.

(** The function mapped over the collected pairs. *)
Definition make_entry (style : jsstr) (flagsByGaId : gmap jsstr AccessFlags)
    (c : Collected) : Adapter.ImportEntry :=
  let ga := groupAddress c in
  let gaStr := KnxUtils.groupAddressNumberToString (address ga) style in
  let dpt := KnxUtils.etsDptToKnxDpt (datapointType ga) in
  let flags :=
    match ID ga with
    | Some gaId => default default_flags (flagsByGaId !! gaId)
    | None => default_flags
    end in
  {| Adapter.id := entry_id (groupRangePath c) gaStr;
     Adapter.name := or_else (ga_name ga) gaStr;
     Adapter.description :=
       match ga_description ga with
       | Some ((_ :: _) as d) => Some d
       | _ => None
       end;
     Adapter.entry_ga := gaStr;
     Adapter.entry_dpt := dpt;
     Adapter.entry_flags := Some flags |}.

(** The style used for rendering: an override other than ['auto'] wins over
    the project's own style, which defaults to ['ThreeLevel']. *)
Definition resolve_style (gaStyleOverride : option jsstr) (result : ParsedProject) : jsstr :=
  let styleFromProject := or_else (groupAddressStyle result) (str "ThreeLevel") in
  match gaStyleOverride with
  | Some ((_ :: _) as o) => if decide (o = str "auto") then styleFromProject else o
  | _ => styleFromProject
  end.

(** [importEtsProject] from the parsed project on: the resolved style and
    the entries. *)
Definition import_entries (gaStyleOverride : option jsstr) (result : ParsedProject)
    : jsstr * list Adapter.ImportEntry :=
  let style := resolve_style gaStyleOverride result in
  let flagsByGaId := EtsImport.buildFlagsByGroupAddressId (topology result) in
  let collected := foldl (fun out root => walkGroupRanges root [] out) [] (roots result) in
  (style, make_entry style flagsByGaId <$> collected).

End WithRuntime.

Section WithHost.
Context {rt : JsRuntime} {tp : Adapter.Transport}.

(** A channel object; it carries a name and nothing else, so the other
    properties of [common] hold no information here. *)
Definition channel (name : jsstr) : Adapter.Obj :=
  {| Adapter.obj_type := str "channel";
     Adapter.common := {| Adapter.c_name := name; Adapter.c_type := []; Adapter.c_role := [];
                          Adapter.c_read := false; Adapter.c_write := false |};
     Adapter.native := Some Adapter.empty_native |}.

(** The loop of [ensureChannelsForState]: every part but the last extends
    the prefix and creates the channel of that name when it is missing. *)
Fixpoint channel_loop (parts : list jsstr) (prefix : jsstr) (a : Adapter.Adapter)
    : Adapter.Adapter :=
  match parts with
  | [] => a
  | seg :: rest =>
      match rest with
      | [] => a
      | _ =>
          let prefix :=
            match prefix with
            | [] => seg
            | _ => prefix ++ Adapter.dot :: seg
            end in
          channel_loop rest prefix (Adapter.setObjectNotExists prefix (channel seg) a)
      end
  end.

(** [ensureChannelsForState(stateIdRel)] *)
Definition ensureChannelsForState (stateIdRel : jsstr) (a : Adapter.Adapter)
    : Adapter.Adapter :=
  let parts := Codec.split_on Adapter.dot stateIdRel in
  if (length parts <=? 1)%nat then a
  else channel_loop parts [] a.

(** The loop of [doImportEtsProject] that creates channels and states. *)
Definition persist_entries (entries : list Adapter.ImportEntry) (a : Adapter.Adapter)
    : Adapter.Adapter :=
  foldl (fun a entry => Adapter.upsertGaState entry (ensureChannelsForState (Adapter.id entry) a))
    a entries.

(** One element of [config.manualDatapoints]. *)
Record ManualDatapoint : Type := {
  m_ga : JsVal;
  m_name : JsVal;
  m_dpt : JsVal;
  m_readFlag : JsVal;
  m_writeFlag : JsVal;
  m_transmitFlag : JsVal
}.

(** [String(dp.ga || '').trim()] *)
Definition manual_ga (dp : ManualDatapoint) : jsstr :=
  KnxUtils.trim (if truthy (m_ga dp) then js_String (m_ga dp) else []).

Definition manual_id (ga : jsstr) : jsstr :=
  str "ga._manual." ++ KnxUtils.sanitizeIdSegment (JString (replace_slashes ga)).

(** The entry handed to [upsertGaState] for a datapoint with address [ga]. *)
Definition manual_entry (dp : ManualDatapoint) (ga : jsstr) : Adapter.ImportEntry :=
  {| Adapter.id := manual_id ga;
     Adapter.name := if truthy (m_name dp) then js_String (m_name dp) else ga;
     Adapter.description := None;
     Adapter.entry_ga := ga;
     Adapter.entry_dpt :=
       if truthy (m_dpt dp) then Some (KnxUtils.trim (js_String (m_dpt dp))) else None;
     Adapter.entry_flags :=
       Some {| readFlag := truthy (m_readFlag dp);
               writeFlag := truthy (m_writeFlag dp);
               transmitFlag := match m_transmitFlag dp with
                               | JUndefined => true
                               | v => truthy v
                               end;
               updateFlag := false |} |}.

(** The body of the loop over the configured datapoints. *)
Definition apply_manual (a : Adapter.Adapter) (dp : ManualDatapoint) : Adapter.Adapter :=
  match manual_ga dp with
  | [] => a
  | ga => Adapter.upsertGaState (manual_entry dp ga) a
  end.

(** [applyManualDatapoints()]; [list] is [config.manualDatapoints], empty
    when that is not an array. *)
Definition applyManualDatapoints (list : list ManualDatapoint) (a : Adapter.Adapter)
    : Adapter.Adapter :=
  match list with
  | [] => a
  | _ =>
      let a := Adapter.setObjectNotExists (str "ga") (channel (str "Group addresses")) a in
      let a := Adapter.setObjectNotExists (str "ga._manual") (channel (str "Manual")) a in
      foldl apply_manual a list
  end.

End WithHost.

End ProjectImport.

(** ** Connection events and the timer over time *)

Module Lifecycle.

Import Adapter.

Section WithHost.
Context {rt : JsRuntime} {tp : Transport}.

Definition set_knxConnected (c : bool) (a : Adapter) : Adapter :=
  {| namespace := namespace a; config := config a; knxConnected := c;
     datapointsByStateId := datapointsByStateId a; metaByStateId := metaByStateId a;
     txQueue := txQueue a; objects := objects a; states := states a;
     bus := bus a; log := log a |}.

(** [onKnxDisconnected()] *)
Definition onKnxDisconnected (a : Adapter) : Adapter :=
  log_line Warn (str "KNX disconnected " ++ [10060%N])
    (setState (str "info.connection") (JBool false) true
       (set_knxConnected false a)).

(** The timer firing [n] times with no other event in between. *)
Fixpoint ticks (n : nat) (a : Adapter) : Adapter :=
  match n with
  | O => a
  | S n => ticks n (tick a).2
  end.



End WithHost.

End Lifecycle.

(** ** Instances used to evaluate the definitions on concrete inputs *)

Module Sample.

(** A runtime that formats and parses non-negative integers and knows no
    date syntax. *)
Definition runtime : JsRuntime :=
  {| number_to_string q := decimal (truncQ q);
     string_to_number s :=
       match Codec.parse_decimal s with
       | Some z => JFin (inject_Z z)
       | None => JNaN
       end;
     date_parse _ := JNaN;
     date_to_string _ := str "Invalid Date" |}.

Definition no_address_exn : Adapter.Exn :=
  {| Adapter.message := Some (str "no address");
     Adapter.rendered := str "Error: no address" |}.

(** A transport that records the operations it carried out and throws on a
    datapoint without group address. *)
Definition transport : Adapter.Transport :=
  {| Adapter.Bus := list Adapter.TxAction;
     Adapter.dp_write dp v b :=
       match Adapter.dp_ga dp with
       | [] => (b, Some no_address_exn)
       | _ => (b ++ [Adapter.DpWrite dp v], None)
       end;
     Adapter.dp_read dp b :=
       match Adapter.dp_ga dp with
       | [] => (b, Some no_address_exn)
       | _ => (b ++ [Adapter.DpRead dp], None)
       end |}.

(** The scenario of the specification: one group address referenced by two
    communication objects, one writing and one reading. *)
Definition ga_ref : EtsImport.Target :=
  {| EtsImport.groupAddressRefID := Some (str "P-0001-0_GA-1");
     EtsImport.groupAddressRedID := None |}.

Definition cor_writer : EtsImport.ComObjRef :=
  {| EtsImport.isActive := JUndefined;
     EtsImport.cor_readFlag := JBool false;
     EtsImport.cor_writeFlag := JBool true;
     EtsImport.cor_transmitFlag := JBool false;
     EtsImport.cor_updateFlag := JBool false;
     EtsImport.connectors := [ {| EtsImport.send := [ga_ref]; EtsImport.receive := [] |} ] |}.

Definition cor_reader : EtsImport.ComObjRef :=
  {| EtsImport.isActive := JBool true;
     EtsImport.cor_readFlag := JBool true;
     EtsImport.cor_writeFlag := JBool false;
     EtsImport.cor_transmitFlag := JBool false;
     EtsImport.cor_updateFlag := JBool false;
     EtsImport.connectors := [ {| EtsImport.send := []; EtsImport.receive := [ga_ref] |} ] |}.

(** A disabled reference that would otherwise add transmit and update. *)
Definition cor_disabled : EtsImport.ComObjRef :=
  {| EtsImport.isActive := JBool false;
     EtsImport.cor_readFlag := JBool false;
     EtsImport.cor_writeFlag := JBool false;
     EtsImport.cor_transmitFlag := JBool true;
     EtsImport.cor_updateFlag := JBool true;
     EtsImport.connectors := [ {| EtsImport.send := [ga_ref]; EtsImport.receive := [] |} ] |}.

Definition project_of (cors : list EtsImport.ComObjRef) : EtsImport.Project :=
  {| EtsImport.areas :=
       [ {| EtsImport.lines :=
              [ {| EtsImport.devices :=
                     [ {| EtsImport.communicationObjectReferences := cors |} ] |} ] |} ] |}.

(** An adapter instance with one bound group address and two queued jobs,
    the first of which is bound to a datapoint the transport rejects. *)
Definition lamp_meta : Adapter.Meta :=
  {| Adapter.ga := str "1/2/3"; Adapter.dpt := Some (str "1.001");
     Adapter.flags := {| readFlag := false; writeFlag := true;
                         transmitFlag := true; updateFlag := false |} |}.

Definition lamp_dp : Adapter.Datapoint :=
  {| Adapter.dp_ga := str "1/2/3"; Adapter.dp_dpt := Some (str "1.001") |}.

Definition broken_dp : Adapter.Datapoint :=
  {| Adapter.dp_ga := []; Adapter.dp_dpt := None |}.

Definition instance : Adapter.Adapter (tp := transport) :=
  @Adapter.Build_Adapter transport
    (str "nexowatt-knx.0")                          (* namespace *)
    {| Adapter.ackOnWrite := true |}                (* config *)
    true                                            (* knxConnected *)
    {[ str "ga.floor.1_2_3" := lamp_dp ]}           (* datapointsByStateId *)
    {[ str "ga.floor.1_2_3" := lamp_meta ]}         (* metaByStateId *)
    [ {| Adapter.fn := Adapter.DpRead broken_dp; Adapter.descr := str "read " |};
      {| Adapter.fn := Adapter.DpRead lamp_dp; Adapter.descr := str "read 1/2/3" |} ]
    ∅ ∅                                             (* objects, states *)
    (@nil Adapter.TxAction)                         (* bus *)
    [].                                             (* log *)

(** A store event on the bound address. *)
Definition event (acked : bool) : Adapter.StateValue :=
  {| Adapter.val := JString (str "on"); Adapter.ack := acked |}.

Definition event_id : jsstr := str "nexowatt-knx.0.ga.floor.1_2_3".

(** Persisted rows: a record written before the transmit flag existed, a
    channel, and a state without group address. *)
Definition legacy_row : Adapter.ViewRow :=
  {| Adapter.row_id := str "nexowatt-knx.0.ga.floor.1_2_3";
     Adapter.doc := Some
       {| Adapter.obj_type := str "state";
          Adapter.common := {| Adapter.c_name := str "Lamp"; Adapter.c_type := str "boolean";
                               Adapter.c_role := str "switch"; Adapter.c_read := true;
                               Adapter.c_write := true |};
          Adapter.native := Some
            {| Adapter.n_ga := JString (str "1/2/3");
               Adapter.n_dpt := JString (str "1.001");
               Adapter.n_flags := Some
                 {| Adapter.raw_readFlag := JBool true;
                    Adapter.raw_writeFlag := JUndefined;
                    Adapter.raw_transmitFlag := JUndefined;
                    Adapter.raw_updateFlag := JUndefined |};
               Adapter.n_description := JUndefined |} |} |}.

Definition foreign_row : Adapter.ViewRow :=
  {| Adapter.row_id := str "nexowatt-knx.0.ga.note";
     Adapter.doc := Some
       {| Adapter.obj_type := str "state";
          Adapter.common := {| Adapter.c_name := str "Note"; Adapter.c_type := str "string";
                               Adapter.c_role := str "text"; Adapter.c_read := true;
                               Adapter.c_write := true |};
          Adapter.native := None |} |}.

(** A manual datapoint that is readable on the bus and nothing else. *)
Definition sensor_entry : Adapter.ImportEntry :=
  {| Adapter.id := str "ga._manual.4_0_1";
     Adapter.name := str "Temperature";
     Adapter.description := None;
     Adapter.entry_ga := str "4/0/1";
     Adapter.entry_dpt := Some (str "9.001");
     Adapter.entry_flags := Some {| readFlag := true; writeFlag := false;
                                    transmitFlag := true; updateFlag := false |} |}.

(** A small group-address tree: a building with a nameless range holding
    one address, and a floor holding two. *)
Definition ga_of (a : Z) (ident : string) : ProjectImport.GroupAddress :=
  {| ProjectImport.address := Codec.address a;
     ProjectImport.datapointType := Some (str "DPST-1-1");
     ProjectImport.ID := Some (str ident);
     ProjectImport.ga_name := None;
     ProjectImport.ga_description := None |}.

Definition tree : list ProjectImport.GroupRange :=
  [ ProjectImport.mkGroupRange (Some (str "Building"))
      [ ProjectImport.mkGroupRange None [] [ga_of 1 "GA-1"];
        ProjectImport.mkGroupRange (Some (str "Floor 1")) [] [ga_of 2 "GA-2"; ga_of 3 "GA-3"] ]
      [ga_of 4 "GA-4"] ].

(** Manual datapoints: one with blanks around its address, one without
    address. *)
Definition manual_lamp : ProjectImport.ManualDatapoint :=
  {| ProjectImport.m_ga := JString (str " 1/2/3 ");
     ProjectImport.m_name := JUndefined;
     ProjectImport.m_dpt := JString (str "1.001");
     ProjectImport.m_readFlag := JUndefined;
     ProjectImport.m_writeFlag := JBool true;
     ProjectImport.m_transmitFlag := JUndefined |}.

Definition manual_blank : ProjectImport.ManualDatapoint :=
  {| ProjectImport.m_ga := JString (str "   ");
     ProjectImport.m_name := JString (str "Nothing");
     ProjectImport.m_dpt := JUndefined;
     ProjectImport.m_readFlag := JBool true;
     ProjectImport.m_writeFlag := JBool true;
     ProjectImport.m_transmitFlag := JBool true |}.

End Sample.

(** * Properties *)

(** ** Address codec *)

Module CodecFacts.

Import KnxUtils Codec.

Lemma uint_codes_digits d : Forall (fun c => is_digit c = true) (uint_codes d).
Proof. induction d; simpl; constructor; auto. Qed.

Lemma codes_uint_codes d : codes_uint (uint_codes d) = Some d.
Proof. induction d; simpl; try rewrite IHd; reflexivity. Qed.

Lemma to_uint_not_nil n : N.to_uint n <> Nil.
Proof.
  destruct n as [|p]; simpl; [discriminate|].
  intros E. pose proof (DecimalPos.Unsigned.to_uint_nonnil p). contradiction.
Qed.

Lemma parse_decimal_decimal z : 0 <= z -> parse_decimal (decimal z) = Some z.
Proof.
  intros Hz. unfold parse_decimal, decimal.
  pose proof (to_uint_not_nil (Z.to_N z)) as Hn.
  rewrite codes_uint_codes. simpl.
  rewrite DecimalN.Unsigned.of_to, Z2N.id by assumption.
  destruct (N.to_uint (Z.to_N z)); [contradiction | reflexivity ..].
Qed.

Lemma decimal_no_slash z : Forall (fun c => c <> slash) (decimal z).
Proof.
  unfold decimal. eapply Forall_impl; [apply uint_codes_digits|].
  intros c Hc ->. discriminate.
Qed.

Lemma split_on_single sep s :
  Forall (fun c => c <> sep) s -> split_on sep s = [s].
Proof.
  induction 1 as [|c s Hc _ IH]; simpl; [reflexivity|].
  apply N.eqb_neq in Hc. rewrite Hc, IH. reflexivity.
Qed.

Lemma split_on_app sep s t :
  Forall (fun c => c <> sep) s -> split_on sep (s ++ sep :: t) = s :: split_on sep t.
Proof.
  induction 1 as [|c s Hc _ IH]; simpl.
  - rewrite N.eqb_refl. reflexivity.
  - apply N.eqb_neq in Hc. rewrite Hc, IH. reflexivity.
Qed.


(** *** The 16-bit layout *)

Lemma ToInt32_small a : 0 <= a < 2 ^ 31 -> ToInt32 (inject_Z a) = a.
Proof.
  intros Ha. unfold ToInt32, truncQ. simpl.
  rewrite Z.quot_1_r, Z.mod_small by lia.
  destruct (Z.leb_spec (2 ^ 31) a); lia.
Qed.

Lemma land_ffff a : 0 <= a <= 65535 -> Z.land a 0xffff = a.
Proof.
  intros Ha. change 0xffff with (Z.ones 16).
  rewrite Z.land_ones, Z.mod_small by lia. reflexivity.
Qed.

Lemma high_bits_clear a n : 0 <= a <= 65535 -> 16 <= n -> Z.testbit a n = false.
Proof.
  intros Ha Hn. destruct (Z.eq_dec a 0) as [->|Hne]; [apply Z.bits_0|].
  apply Z.bits_above_log2; [lia|].
  apply Z.log2_lt_pow2; [lia|].
  apply Z.lt_le_trans with (2 ^ 16); [lia|].
  apply Z.pow_le_mono_r; lia.
Qed.

Ltac bitwise a Ha :=
  apply Z.bits_inj'; intros n Hn;
  repeat rewrite ?Z.lor_spec, ?Z.land_spec;
  repeat match goal with
  | |- context [Z.testbit (Z.shiftl ?x ?k) n] =>
      destruct (Z.ltb_spec n k);
      [ rewrite (Z.shiftl_spec_low x k n) by lia
      | rewrite (Z.shiftl_spec x k n) by lia;
        rewrite ?Z.land_spec, ?Z.shiftr_spec by lia ]
  end;
  repeat match goal with
  | |- context [Z.testbit (Z.ones ?k) ?m] =>
      destruct (Z.ltb_spec m k);
      [ rewrite (Z.ones_spec_low k m) by lia
      | rewrite (Z.ones_spec_high k m) by lia ]
  end;
  rewrite ?Z.sub_add, ?andb_true_r, ?andb_false_r, ?orb_false_r, ?orb_false_l;
  try reflexivity; try lia;
  try (symmetry; apply (high_bits_clear a n Ha); lia).

Lemma two_level_layout a :
  0 <= a <= 65535 ->
  Z.lor (Z.shiftl (Z.land (Z.shiftr a 11) 0x1f) 11) (Z.land a 0x7ff) = a.
Proof.
  intros Ha. change 0x1f with (Z.ones 5). change 0x7ff with (Z.ones 11).
  bitwise a Ha.
Qed.

Lemma three_level_layout a :
  0 <= a <= 65535 ->
  Z.lor (Z.lor (Z.shiftl (Z.land (Z.shiftr a 11) 0x1f) 11)
               (Z.shiftl (Z.land (Z.shiftr a 8) 0x07) 8))
        (Z.land a 0xff) = a.
Proof.
  intros Ha. change 0x1f with (Z.ones 5). change 0x07 with (Z.ones 3).
  change 0xff with (Z.ones 8).
  bitwise a Ha.
Qed.


(** *** Rendering and reading back *)

Section Rendering.
Context {rt : JsRuntime}.

Lemma render_two_level a :
  0 <= a <= 65535 ->
  groupAddressNumberToString (address a) (str "TwoLevel")
  = decimal (Z.land (Z.shiftr a 11) 0x1f) ++ slash :: decimal (Z.land a 0x7ff).
Proof.
  intros Ha. unfold groupAddressNumberToString, address.
  rewrite ToInt32_small, land_ffff by lia.
  destruct (decide (str "TwoLevel" = str "TwoLevel")); [reflexivity | contradiction].
Qed.

Lemma render_default a style :
  0 <= a <= 65535 -> style <> str "TwoLevel" ->
  groupAddressNumberToString (address a) style
  = decimal (Z.land (Z.shiftr a 11) 0x1f) ++ slash ::
    decimal (Z.land (Z.shiftr a 8) 0x07) ++ slash :: decimal (Z.land a 0xff).
Proof.
  intros Ha Hs. unfold groupAddressNumberToString, address.
  rewrite ToInt32_small, land_ffff by lia.
  destruct (decide (style = str "TwoLevel")); [contradiction | reflexivity].
Qed.

Lemma field_nonneg x m : 0 <= m -> 0 <= Z.land x m.
Proof. intros Hm. apply Z.land_nonneg. right. exact Hm. Qed.

Lemma decode_render style a :
  style = str "ThreeLevel" \/ style = str "TwoLevel" ->
  0 <= a <= 65535 ->
  decodeAddress style (groupAddressNumberToString (address a) style) = Some a.
Proof.
  intros [-> | ->] Ha.
  - rewrite render_default by (lia || discriminate).
    unfold decodeAddress.
    destruct (decide (str "ThreeLevel" = str "TwoLevel")) as [E|_]; [discriminate E|].
    rewrite split_on_app by apply decimal_no_slash.
    rewrite split_on_app by apply decimal_no_slash.
    rewrite split_on_single by apply decimal_no_slash.
    rewrite !parse_decimal_decimal by (apply field_nonneg; lia).
    simpl. rewrite three_level_layout by lia. reflexivity.
  - rewrite render_two_level by lia.
    unfold decodeAddress.
    destruct (decide (str "TwoLevel" = str "TwoLevel")) as [_|E]; [|contradiction].
    rewrite split_on_app by apply decimal_no_slash.
    rewrite split_on_single by apply decimal_no_slash.
    rewrite !parse_decimal_decimal by (apply field_nonneg; lia).
    simpl. rewrite two_level_layout by lia. reflexivity.
Qed.

(** C1. For every address in [0,65535] and both slash-separated styles, the
    rendered string determines the address: reading it back with the same
    style's bit layout gives the address, and so two addresses of the range
    with the same rendering are equal. *)
Theorem rendering_determines_address (style : jsstr) (a : Z) :
  style = str "ThreeLevel" \/ style = str "TwoLevel" ->
  0 <= a <= 65535 ->
  decodeAddress style (groupAddressNumberToString (address a) style) = Some a
  /\ (forall b, 0 <= b <= 65535 ->
        groupAddressNumberToString (address b) style
        = groupAddressNumberToString (address a) style ->
        b = a).
Proof.
  intros Hs Ha. split; [apply decode_render; assumption|].
  intros b Hb E.
  pose proof (decode_render style b Hs Hb) as Db.
  rewrite E, decode_render in Db by assumption.
  congruence.
Qed.

(** C2, as the code has it. For every address in [0,65535], the style
    ['Free'] has no branch of its own and takes the default: the result is
    the slash-separated main/middle/sub rendering, the same string as for
    ['ThreeLevel'], and it is not the decimal rendering of the address. *)
Theorem free_style_renders_three_level (a : Z) :
  0 <= a <= 65535 ->
  groupAddressNumberToString (address a) (str "Free")
  = groupAddressNumberToString (address a) (str "ThreeLevel")
  /\ groupAddressNumberToString (address a) (str "Free")
     = decimal (Z.land (Z.shiftr a 11) 0x1f) ++ slash ::
       decimal (Z.land (Z.shiftr a 8) 0x07) ++ slash :: decimal (Z.land a 0xff)
  /\ groupAddressNumberToString (address a) (str "Free") <> decimal a.
Proof.
  intros Ha.
  rewrite !render_default by (lia || discriminate).
  split; [reflexivity|]. split; [reflexivity|].
  intros E. pose proof (decimal_no_slash a) as Hn. rewrite <- E in Hn.
  apply Forall_app in Hn as [_ Hn]. apply Forall_cons in Hn as [Hn _].
  apply Hn. reflexivity.
Qed.

End Rendering.

Lemma rendering_determines_address_witness :
  decodeAddress (str "TwoLevel")
    (groupAddressNumberToString (rt := Sample.runtime) (address 6544) (str "TwoLevel"))
  = Some 6544
  /\ (forall b, 0 <= b <= 65535 ->
        groupAddressNumberToString (rt := Sample.runtime) (address b) (str "TwoLevel")
        = groupAddressNumberToString (rt := Sample.runtime) (address 6544) (str "TwoLevel") ->
        b = 6544).
Proof.
  apply (rendering_determines_address (rt := Sample.runtime) (str "TwoLevel") 6544).
  - right. reflexivity.
  - lia.
Defined.

(** The address 5 under ['Free'] is rendered ["0/0/5"], not ["5"]. *)
Lemma free_style_not_decimal :
  groupAddressNumberToString (rt := Sample.runtime) (address 5) (str "Free") = str "0/0/5"
  /\ groupAddressNumberToString (rt := Sample.runtime) (address 5) (str "Free") <> decimal 5.
Proof. split; [reflexivity | discriminate]. Qed.

Lemma free_style_renders_three_level_witness :
  groupAddressNumberToString (rt := Sample.runtime) (address 6544) (str "Free")
  = groupAddressNumberToString (rt := Sample.runtime) (address 6544) (str "ThreeLevel")
  /\ groupAddressNumberToString (rt := Sample.runtime) (address 6544) (str "Free")
     = decimal (Z.land (Z.shiftr 6544 11) 0x1f) ++ slash ::
       decimal (Z.land (Z.shiftr 6544 8) 0x07) ++ slash :: decimal (Z.land 6544 0xff)
  /\ groupAddressNumberToString (rt := Sample.runtime) (address 6544) (str "Free")
     <> decimal 6544.
Proof.
  apply (free_style_renders_three_level (rt := Sample.runtime) 6544). lia.
Defined.

(** The scenario of the specification: 3/400 under ['TwoLevel']. *)
Example render_3_400 :
  groupAddressNumberToString (rt := Sample.runtime) (address 6544) (str "TwoLevel")
  = str "3/400".
Proof. reflexivity. Qed.

End CodecFacts.

(** ** Flag aggregation *)

Module FlagFacts.

Import EtsImport.

Lemma flags_le_refl f : flags_le f f.
Proof. unfold flags_le. tauto. Qed.

Lemma flags_le_trans f g h : flags_le f g -> flags_le g h -> flags_le f h.
Proof. unfold flags_le. tauto. Qed.

Lemma map_le_refl m : map_le m m.
Proof. intros k f Hk. exists f. split; [assumption | apply flags_le_refl]. Qed.

Lemma map_le_trans m1 m2 m3 : map_le m1 m2 -> map_le m2 m3 -> map_le m1 m3.
Proof.
  intros H12 H23 k f Hk.
  destruct (H12 k f Hk) as (g & Hg & Hfg).
  destruct (H23 k g Hg) as (h & Hh & Hgh).
  exists h. split; [assumption | eapply flags_le_trans; eassumption].
Qed.

Lemma orb_keeps a b : a = true -> a || b = true.
Proof. intros ->. reflexivity. Qed.

(** One merge only adds flags, to the record of its identifier. *)
Lemma merge_target_grows flags m gaId : map_le m (merge_target flags m gaId).
Proof.
  unfold merge_target. destruct gaId as [[|c r]|]; try apply map_le_refl.
  intros k f Hk. destruct (decide (c :: r = k)) as [<-|Hne].
  - rewrite lookup_insert_eq, Hk. simpl. eexists. split; [reflexivity|].
    repeat split; simpl; apply orb_keeps.
  - rewrite lookup_insert_ne by assumption. exists f.
    split; [assumption | apply flags_le_refl].
Qed.

(** A merge into a larger map gives a larger map. *)
Lemma merge_target_mono flags m m' gaId :
  map_le m m' -> map_le (merge_target flags m gaId) (merge_target flags m' gaId).
Proof.
  intros Hle. unfold merge_target. destruct gaId as [[|c r]|]; try assumption.
  intros k f. destruct (decide (c :: r = k)) as [<-|Hne].
  - rewrite !lookup_insert_eq. intros [= <-]. eexists. split; [reflexivity|].
    destruct (m !! (c :: r)) as [f0|] eqn:E0; simpl.
    + destruct (Hle _ _ E0) as (g0 & -> & H1 & H2 & H3 & H4). simpl.
      repeat split; simpl; intros Hor; apply orb_true_iff in Hor as [Hor|Hor];
        apply orb_true_iff; auto.
    + repeat split; simpl; intros ->; apply orb_true_r.
  - rewrite !lookup_insert_ne by assumption. apply Hle.
Qed.

(** Folding a step that only grows the map, and respects the order, does
    the same. *)
Section Folds.
Context {A : Type} (step : gmap jsstr AccessFlags -> A -> gmap jsstr AccessFlags).
Hypothesis step_grows : forall m x, map_le m (step m x).
Hypothesis step_mono : forall m m' x, map_le m m' -> map_le (step m x) (step m' x).

Lemma foldl_grows l : forall m, map_le m (foldl step m l).
Proof.
  induction l as [|x l IH]; intros m; simpl; [apply map_le_refl|].
  eapply map_le_trans; [apply step_grows | apply IH].
Qed.

Lemma foldl_mono l : forall m m', map_le m m' -> map_le (foldl step m l) (foldl step m' l).
Proof.
  induction l as [|x l IH]; intros m m' Hle; simpl; [assumption|].
  apply IH, step_mono, Hle.
Qed.

End Folds.

Lemma visit_connector_grows flags m conn : map_le m (visit_connector flags m conn).
Proof.
  unfold visit_connector.
  apply map_le_trans with (foldl (visit_send flags) m (send conn));
    apply foldl_grows; intros; apply merge_target_grows.
Qed.

Lemma visit_connector_mono flags m m' conn :
  map_le m m' -> map_le (visit_connector flags m conn) (visit_connector flags m' conn).
Proof.
  intros Hle. unfold visit_connector.
  apply foldl_mono; [intros; apply merge_target_mono; assumption|].
  apply foldl_mono; [intros; apply merge_target_mono; assumption|].
  exact Hle.
Qed.

Lemma visit_cor_grows m cor : map_le m (visit_cor m cor).
Proof.
  unfold visit_cor. destruct (explicitly_inactive cor); [apply map_le_refl|].
  apply foldl_grows. intros. apply visit_connector_grows.
Qed.

Lemma visit_cor_mono m m' cor : map_le m m' -> map_le (visit_cor m cor) (visit_cor m' cor).
Proof.
  intros Hle. unfold visit_cor. destruct (explicitly_inactive cor); [assumption|].
  apply foldl_mono; [intros; apply visit_connector_mono; assumption | exact Hle].
Qed.

Lemma visit_cor_inactive m cor : isActive cor = JBool false -> visit_cor m cor = m.
Proof. intros E. unfold visit_cor, explicitly_inactive. rewrite E. reflexivity. Qed.

(** The nested loops visit the references one after the other. *)
Lemma foldl_bind {A B C} (f : C -> B -> C) (g : A -> list B) l :
  forall c, foldl f c (l ≫= g) = foldl (fun c x => foldl f c (g x)) c l.
Proof.
  induction l as [|x l IH]; intros c; simpl; [reflexivity|].
  rewrite foldl_app. apply IH.
Qed.

Lemma foldl_pointwise {A C} (f g : C -> A -> C) l :
  (forall c x, f c x = g c x) -> forall c, foldl f c l = foldl g c l.
Proof.
  intros E. induction l as [|x l IH]; intros c; simpl; [reflexivity|].
  rewrite E. apply IH.
Qed.

Lemma build_by_references result :
  buildFlagsByGroupAddressId result = foldl visit_cor ∅ (references result).
Proof.
  unfold buildFlagsByGroupAddressId, references.
  rewrite foldl_bind. apply foldl_pointwise. intros m area.
  rewrite foldl_bind. apply foldl_pointwise. intros m' line.
  rewrite foldl_bind. reflexivity.
Qed.

(** Inserting one reference anywhere in the sequence of visited references
    gives a larger map. *)
Lemma insert_reference_grows l1 l2 cor :
  map_le (foldl visit_cor ∅ (l1 ++ l2)) (foldl visit_cor ∅ (l1 ++ cor :: l2)).
Proof.
  rewrite !foldl_app. simpl.
  apply foldl_mono; [intros; apply visit_cor_mono; assumption|].
  apply visit_cor_grows.
Qed.

(** C3. Aggregation is monotone per field.  Take any project and the project
    obtained by one more communication-object reference, wherever it stands
    in the topology.  Every identifier aggregated before is still aggregated,
    and each of its four flags that was true is still true; the same holds
    for the single loop iteration that processes the reference.  When the
    reference's [isActive] is [false], the iteration leaves the map as it
    was, and so the two projects have the same result. *)
Theorem aggregation_monotone (result result' : Project) (l1 l2 : list ComObjRef)
    (cor : ComObjRef) :
  references result = l1 ++ l2 ->
  references result' = l1 ++ cor :: l2 ->
  (forall gaId f,
      buildFlagsByGroupAddressId result !! gaId = Some f ->
      exists g, buildFlagsByGroupAddressId result' !! gaId = Some g /\ flags_le f g)
  /\ (forall m gaId f,
        m !! gaId = Some f ->
        exists g, visit_cor m cor !! gaId = Some g /\ flags_le f g)
  /\ (isActive cor = JBool false ->
        (forall m, visit_cor m cor = m)
        /\ buildFlagsByGroupAddressId result' = buildFlagsByGroupAddressId result).
Proof.
  intros E E'. rewrite !build_by_references, E, E'.
  split; [|split].
  - apply insert_reference_grows.
  - intros m. apply visit_cor_grows.
  - intros Hin. split; [intros m; apply visit_cor_inactive, Hin|].
    rewrite !foldl_app. simpl. rewrite visit_cor_inactive by assumption. reflexivity.
Qed.

Lemma aggregation_monotone_witness :
  (forall gaId f,
      buildFlagsByGroupAddressId (Sample.project_of [Sample.cor_writer]) !! gaId = Some f ->
      exists g,
        buildFlagsByGroupAddressId
          (Sample.project_of [Sample.cor_writer; Sample.cor_reader]) !! gaId = Some g
        /\ flags_le f g)
  /\ (forall m gaId f,
        m !! gaId = Some f ->
        exists g, visit_cor m Sample.cor_reader !! gaId = Some g /\ flags_le f g)
  /\ (isActive Sample.cor_reader = JBool false ->
        (forall m, visit_cor m Sample.cor_reader = m)
        /\ buildFlagsByGroupAddressId
             (Sample.project_of [Sample.cor_writer; Sample.cor_reader])
           = buildFlagsByGroupAddressId (Sample.project_of [Sample.cor_writer])).
Proof.
  apply (aggregation_monotone
           (Sample.project_of [Sample.cor_writer])
           (Sample.project_of [Sample.cor_writer; Sample.cor_reader])
           [Sample.cor_writer] [] Sample.cor_reader).
  - reflexivity.
  - reflexivity.
Defined.

(** The scenario of the specification: the writer and the reader of one
    group address aggregate to read and write. *)
Example two_references_aggregate :
  buildFlagsByGroupAddressId (Sample.project_of [Sample.cor_writer; Sample.cor_reader])
    !! str "P-0001-0_GA-1"
  = Some {| readFlag := true; writeFlag := true; transmitFlag := false; updateFlag := false |}.
Proof. vm_compute. reflexivity. Qed.

(** A reference whose [isActive] is [false] adds nothing. *)
Example disabled_reference_ignored :
  buildFlagsByGroupAddressId
    (Sample.project_of [Sample.cor_writer; Sample.cor_disabled; Sample.cor_reader])
  = buildFlagsByGroupAddressId (Sample.project_of [Sample.cor_writer; Sample.cor_reader]).
Proof. reflexivity. Qed.

(** *** The aggregate is the disjunction over the active references *)

Lemma merge_target_present flags m g k :
  is_Some (merge_target flags m g !! k) <-> is_Some (m !! k) \/ (g = Some k /\ k <> []).
Proof.
  unfold merge_target. destruct g as [[|c r]|].
  - split; [auto | intros [Hm | [[= <-] Hk]]; [exact Hm | contradiction]].
  - destruct (decide (c :: r = k)) as [<-|Hne].
    + rewrite lookup_insert_eq. split; [intros _; right; split; [reflexivity | discriminate]|].
      intros _. eexists. reflexivity.
    + rewrite lookup_insert_ne by assumption.
      split; [auto | intros [Hm | [[= E] _]]; [exact Hm | contradiction]].
  - split; [auto | intros [Hm | [E _]]; [exact Hm | discriminate]].
Qed.

Lemma flag_merged n agg flags :
  flag n {| readFlag := readFlag agg || readFlag flags;
            writeFlag := writeFlag agg || writeFlag flags;
            transmitFlag := transmitFlag agg || transmitFlag flags;
            updateFlag := updateFlag agg || updateFlag flags |}
  = flag n agg || flag n flags.
Proof. destruct n; reflexivity. Qed.

Lemma merge_target_has flags m g k n :
  has_flag (merge_target flags m g) k n
  <-> has_flag m k n \/ (g = Some k /\ k <> [] /\ flag n flags = true).
Proof.
  unfold merge_target, has_flag. destruct g as [[|c r]|].
  - split; [auto | intros [Hm | [[= <-] [Hk _]]]; [exact Hm | contradiction]].
  - destruct (decide (c :: r = k)) as [<-|Hne].
    + rewrite lookup_insert_eq. split.
      * intros (f & [= <-] & Hf). rewrite flag_merged in Hf.
        apply orb_true_iff in Hf as [Hf|Hf].
        -- left. destruct (m !! (c :: r)) as [f0|]; [exists f0; auto|].
           destruct n; discriminate Hf.
        -- right. split; [reflexivity|]. split; [discriminate | exact Hf].
      * intros [(f & Hm & Hf) | (_ & _ & Hf)]; eexists; (split; [reflexivity|]);
          rewrite flag_merged; apply orb_true_iff.
        -- left. rewrite Hm. exact Hf.
        -- right. exact Hf.
    + rewrite lookup_insert_ne by assumption.
      split; [auto | intros [Hm | [[= E] _]]; [exact Hm | contradiction]].
  - split; [auto | intros [Hm | [E _]]; [exact Hm | discriminate]].
Qed.

Section FoldOr.
Context {A : Type} (step : gmap jsstr AccessFlags -> A -> gmap jsstr AccessFlags).
Context (P : A -> jsstr -> Prop) (Q : A -> jsstr -> FlagName -> Prop).
Hypothesis step_present :
  forall m x k, is_Some (step m x !! k) <-> is_Some (m !! k) \/ P x k.
Hypothesis step_has :
  forall m x k n, has_flag (step m x) k n <-> has_flag m k n \/ Q x k n.

Lemma foldl_present l : forall m k,
  is_Some (foldl step m l !! k) <-> is_Some (m !! k) \/ exists x, x ∈ l /\ P x k.
Proof.
  induction l as [|x l IH]; intros m k; simpl.
  - split; [auto | intros [Hm | (x & Hx & _)]; [exact Hm | inversion Hx]].
  - rewrite IH, step_present. split.
    + intros [[Hm | Hp] | (y & Hy & Hp)]; [left; exact Hm | right .. ].
      * exists x. split; [left | exact Hp].
      * exists y. split; [right; exact Hy | exact Hp].
    + intros [Hm | (y & Hy & Hp)]; [left; left; exact Hm|].
      apply elem_of_cons in Hy as [-> | Hy]; [left; right; exact Hp|].
      right. exists y. split; assumption.
Qed.

Lemma foldl_has l : forall m k n,
  has_flag (foldl step m l) k n <-> has_flag m k n \/ exists x, x ∈ l /\ Q x k n.
Proof.
  induction l as [|x l IH]; intros m k n; simpl.
  - split; [auto | intros [Hm | (x & Hx & _)]; [exact Hm | inversion Hx]].
  - rewrite IH, step_has. split.
    + intros [[Hm | Hp] | (y & Hy & Hp)]; [left; exact Hm | right .. ].
      * exists x. split; [left | exact Hp].
      * exists y. split; [right; exact Hy | exact Hp].
    + intros [Hm | (y & Hy & Hp)]; [left; left; exact Hm|].
      apply elem_of_cons in Hy as [-> | Hy]; [left; right; exact Hp|].
      right. exists y. split; assumption.
Qed.

End FoldOr.

Lemma foldl_fmap_step {A B C} (f : C -> B -> C) (g : A -> B) l :
  forall c, foldl f c (g <$> l) = foldl (fun c x => f c (g x)) c l.
Proof. induction l as [|x l IH]; intros c; simpl; [reflexivity | apply IH]. Qed.

Lemma visit_connector_ids flags m conn :
  visit_connector flags m conn = foldl (merge_target flags) m (connector_ids conn).
Proof.
  unfold visit_connector, connector_ids. rewrite foldl_app, !foldl_fmap_step. reflexivity.
Qed.

Lemma visit_cor_ids m cor :
  visit_cor m cor
  = if explicitly_inactive cor then m
    else foldl (merge_target (cor_flags cor)) m (cor_ids cor).
Proof.
  unfold visit_cor, cor_ids. destruct (explicitly_inactive cor); [reflexivity|].
  rewrite foldl_bind. apply foldl_pointwise. intros. apply visit_connector_ids.
Qed.

Lemma flag_cor_flags n cor : flag n (cor_flags cor) = truthy (cor_flag n cor).
Proof. destruct n; reflexivity. Qed.

Lemma visit_cor_present m cor k :
  is_Some (visit_cor m cor !! k) <-> is_Some (m !! k) \/ refers cor k.
Proof.
  rewrite visit_cor_ids. unfold refers. destruct (explicitly_inactive cor).
  - split; [auto | intros [Hm | [E _]]; [exact Hm | discriminate]].
  - rewrite (foldl_present _ (fun g k => g = Some k /\ k <> []))
      by (intros; apply merge_target_present).
    split; (intros [Hm | Hr]; [left; exact Hm | right]).
    + destruct Hr as (g & Hg & -> & Hk). auto.
    + destruct Hr as (_ & Hk & Hin). exists (Some k). auto.
Qed.

Lemma visit_cor_has m cor k n :
  has_flag (visit_cor m cor) k n
  <-> has_flag m k n \/ (refers cor k /\ truthy (cor_flag n cor) = true).
Proof.
  rewrite visit_cor_ids, <- flag_cor_flags. unfold refers.
  destruct (explicitly_inactive cor).
  - split; [auto | intros [Hm | [[E _] _]]; [exact Hm | discriminate]].
  - rewrite (foldl_has _ (fun g k n => g = Some k /\ k <> [] /\ flag n (cor_flags cor) = true))
      by (intros; apply merge_target_has).
    split; (intros [Hm | Hr]; [left; exact Hm | right]).
    + destruct Hr as (g & Hg & -> & Hk & Hf). auto.
    + destruct Hr as ((_ & Hk & Hin) & Hf). exists (Some k). auto.
Qed.

Lemma build_present result k :
  is_Some (buildFlagsByGroupAddressId result !! k)
  <-> exists cor, cor ∈ references result /\ refers cor k.
Proof.
  rewrite build_by_references.
  rewrite (foldl_present _ refers) by (intros; apply visit_cor_present).
  rewrite lookup_empty. split; [intros [[x Hx] | Hr]; [discriminate | exact Hr] | auto].
Qed.

Lemma build_flag result k n f :
  buildFlagsByGroupAddressId result !! k = Some f ->
  (flag n f = true
   <-> exists cor, cor ∈ references result /\ refers cor k
                   /\ truthy (cor_flag n cor) = true).
Proof.
  rewrite build_by_references. intros Hf.
  pose proof (foldl_has visit_cor (fun cor k n => refers cor k /\ truthy (cor_flag n cor) = true)
                (fun m x k n => visit_cor_has m x k n) (references result) ∅ k n) as H.
  unfold has_flag in H at 1. rewrite Hf in H.
  split.
  - intros Hn. destruct H as [H _].
    destruct (H (ex_intro _ f (conj eq_refl Hn))) as [(f0 & E0 & _) | Hr].
    + rewrite lookup_empty in E0. discriminate.
    + destruct Hr as (cor & Hin & Hr & Ht). eauto.
  - intros (cor & Hin & Hr & Ht). destruct H as [_ H].
    destruct H as (f' & [= <-] & Hn); [|exact Hn].
    right. eauto.
Qed.

(** The aggregated map has a record exactly for the identifiers some active
    reference points at, and on a record each flag is set exactly when one of
    the active references that point at the identifier has it set. *)
Theorem aggregation_is_disjunction (result : Project) (gaId : jsstr) :
  (is_Some (buildFlagsByGroupAddressId result !! gaId)
   <-> exists cor, cor ∈ references result /\ refers cor gaId)
  /\ (forall n f,
        buildFlagsByGroupAddressId result !! gaId = Some f ->
        (flag n f = true
         <-> exists cor, cor ∈ references result /\ refers cor gaId
                         /\ truthy (cor_flag n cor) = true)).
Proof.
  split; [apply build_present|]. intros n f. apply build_flag.
Qed.

Lemma flags_by_name f g : (forall n, flag n f = flag n g) -> f = g.
Proof.
  intros E. pose proof (E Read). pose proof (E Write).
  pose proof (E Transmit). pose proof (E Update).
  destruct f, g; simpl in *. congruence.
Qed.

(** Only the set of references matters: two projects with the same
    references, in any order and any number of copies, aggregate to the same
    map. *)
Theorem aggregation_order_independent (result result' : Project) :
  (forall cor, cor ∈ references result <-> cor ∈ references result') ->
  buildFlagsByGroupAddressId result = buildFlagsByGroupAddressId result'.
Proof.
  intros Hsame. apply map_eq. intros k.
  pose proof (build_present result k) as P1.
  pose proof (build_present result' k) as P2.
  pose proof (fun n f => build_flag result k n f) as F1.
  pose proof (fun n f => build_flag result' k n f) as F2.
  assert (Hp : is_Some (buildFlagsByGroupAddressId result !! k)
               <-> is_Some (buildFlagsByGroupAddressId result' !! k)).
  { rewrite P1, P2. split; intros (cor & Hin & Hr); exists cor; (split; [apply Hsame, Hin | exact Hr]). }
  destruct (buildFlagsByGroupAddressId result !! k) as [f|] eqn:E1;
    destruct (buildFlagsByGroupAddressId result' !! k) as [g|] eqn:E2.
  - f_equal. apply flags_by_name. intros n.
    specialize (F1 n f eq_refl). specialize (F2 n g eq_refl).
    apply eq_true_iff_eq. rewrite F1, F2.
    split; intros (cor & Hin & Hr); exists cor; (split; [apply Hsame, Hin | exact Hr]).
  - destruct Hp as [Hp _]. destruct Hp as [x Hx]; [eexists; reflexivity | discriminate].
  - destruct Hp as [_ Hp]. destruct Hp as [x Hx]; [eexists; reflexivity | discriminate].
  - reflexivity.
Qed.

Lemma aggregation_order_independent_witness :
  buildFlagsByGroupAddressId (Sample.project_of [Sample.cor_writer; Sample.cor_reader])
  = buildFlagsByGroupAddressId
      (Sample.project_of [Sample.cor_reader; Sample.cor_writer; Sample.cor_reader]).
Proof.
  apply (aggregation_order_independent
           (Sample.project_of [Sample.cor_writer; Sample.cor_reader])
           (Sample.project_of [Sample.cor_reader; Sample.cor_writer; Sample.cor_reader])).
  intros cor.
  change (cor ∈ [Sample.cor_writer; Sample.cor_reader]
          <-> cor ∈ [Sample.cor_reader; Sample.cor_writer; Sample.cor_reader]).
  rewrite !elem_of_cons. tauto.
Defined.

End FlagFacts.

(** ** The synchronisation engine *)

Module AdapterFacts.

Import Adapter.

Lemma startsWith_app p r : startsWith (p ++ r) p = true.
Proof. induction p as [|x p IH]; simpl; [reflexivity|]. rewrite N.eqb_refl. exact IH. Qed.

Section Engine.
Context {rt : JsRuntime} {tp : Transport}.

(** C4. A state-change event whose acknowledged flag is true leaves the
    adapter as it was: nothing is queued and nothing is written to the
    store. *)
Theorem acknowledged_event_ignored (now : JsNum) (idFull : jsstr) (state : StateValue)
    (a : Adapter) :
  ack state = true ->
  onStateChange now idFull (Some state) a = a
  /\ txQueue (onStateChange now idFull (Some state) a) = txQueue a
  /\ states (onStateChange now idFull (Some state) a) = states a
  /\ objects (onStateChange now idFull (Some state) a) = objects a.
Proof.
  intros Hack. unfold onStateChange. rewrite Hack. repeat split.
Qed.

(** Re-acknowledging the value does not touch the queue. *)
Lemma txQueue_setState k v b (a : Adapter) : txQueue (setState k v b a) = txQueue a.
Proof. reflexivity. Qed.

Lemma txQueue_enqueue f d (a : Adapter) :
  d <> [] -> txQueue (enqueueKnx f d a) = txQueue a ++ [{| fn := f; descr := d |}].
Proof. intros Hd. destruct d; [contradiction | reflexivity]. Qed.

(** C5. A non-acknowledged event on an identifier under [ga.] that has a
    mapping record and a bound datapoint: with the write flag, a write job
    carrying the coerced value is appended to the queue; without it but with
    the read flag, a read job is appended; with neither, the queue is
    unchanged. *)
Theorem command_dispatch (now : JsNum) (idFull idRel : jsstr) (state : StateValue)
    (meta : Meta) (dp : Datapoint) (a : Adapter) :
  ack state = false ->
  idFull = namespace a ++ dot :: idRel ->
  startsWith idRel (str "ga.") = true ->
  metaByStateId a !! idRel = Some meta ->
  datapointsByStateId a !! idRel = Some dp ->
  (writeFlag (flags meta) = true ->
     txQueue (onStateChange now idFull (Some state) a)
     = txQueue a ++
       [{| fn := DpWrite dp (KnxUtils.coerceToKnxValue now (val state) (dpt meta));
           descr := str "write " ++ ga meta |}])
  /\ (writeFlag (flags meta) = false -> readFlag (flags meta) = true ->
        txQueue (onStateChange now idFull (Some state) a)
        = txQueue a ++ [{| fn := DpRead dp; descr := str "read " ++ ga meta |}])
  /\ (writeFlag (flags meta) = false -> readFlag (flags meta) = false ->
        txQueue (onStateChange now idFull (Some state) a) = txQueue a).
Proof.
  intros Hack -> Hga Hmeta Hdp.
  assert (E : onStateChange now (namespace a ++ dot :: idRel) (Some state) a
              = let reack (a : Adapter) :=
                  if ackOnWrite (config a) then setState idRel (val state) true a else a in
                if writeFlag (flags meta) then
                  reack (enqueueKnx
                           (DpWrite dp (KnxUtils.coerceToKnxValue now (val state) (dpt meta)))
                           (str "write " ++ ga meta) a)
                else if readFlag (flags meta) then
                  reack (enqueueKnx (DpRead dp) (str "read " ++ ga meta) a)
                else
                  reack (log_line Debug
                           (str "State not writeable/readable by flags: " ++ idRel
                            ++ str " (" ++ ga meta ++ str ")") a)).
  { unfold onStateChange. rewrite Hack.
    replace (namespace a ++ dot :: idRel) with ((namespace a ++ [dot]) ++ idRel)
      by (rewrite <- app_assoc; reflexivity).
    remember (str "ga.") as under_ga.
    rewrite startsWith_app, drop_app_length, Hga, Hmeta, Hdp. reflexivity. }
  rewrite E. clear E. cbv zeta.
  repeat split.
  - intros ->. destruct (ackOnWrite _); reflexivity.
  - intros -> ->. destruct (ackOnWrite _); reflexivity.
  - intros -> ->. destruct (ackOnWrite _); reflexivity.
Qed.

(** No exception leaves a timer tick. *)
Lemma tick_returns (a : Adapter) : (tick a).1 = Returned.
Proof.
  unfold tick. destruct (knxConnected a); simpl; [|reflexivity].
  destruct (txQueue a) as [|job rest]; [reflexivity|].
  unfold try_catch, call. simpl.
  destruct (perform (fn job) (bus a)) as [b [e|]]; reflexivity.
Qed.

(** A tick while connected takes the head of the queue and carries it out
    on the transport. *)
Lemma tick_executes_head (a : Adapter) job rest :
  knxConnected a = true -> txQueue a = job :: rest ->
  txQueue (tick a).2 = rest
  /\ bus (tick a).2 = (perform (fn job) (bus a)).1
  /\ knxConnected (tick a).2 = true.
Proof.
  intros Hc Hq. unfold tick. rewrite Hc, Hq. simpl.
  unfold try_catch, call. simpl.
  destruct (perform (fn job) (bus a)) as [b [e|]]; simpl; auto.
Qed.

(** C6. While the connection is up, a tick whose head job throws returns
    normally, as every tick does; the job is gone from the queue and the
    failure is logged with the job's description; the next tick carries out
    the job that followed it, and leaves the rest of the queue in order. *)
Theorem throwing_job_is_dropped (a : Adapter) (job : TxJob) (rest : list TxJob)
    (b : Bus) (e : Exn) :
  knxConnected a = true ->
  txQueue a = job :: rest ->
  perform (fn job) (bus a) = (b, Some e) ->
  (forall a0 : Adapter, (tick a0).1 = Returned)
  /\ (tick a).1 = Returned
  /\ txQueue (tick a).2 = rest
  /\ log (tick a).2
     = log a ++ [(Warn, str "KNX TX failed (" ++ descr job ++ str "): " ++ exn_text e)]
  /\ (forall next rest',
        rest = next :: rest' ->
        (tick (tick a).2).1 = Returned
        /\ bus (tick (tick a).2).2 = (perform (fn next) (bus (tick a).2)).1
        /\ txQueue (tick (tick a).2).2 = rest').
Proof.
  intros Hc Hq Hthrow.
  destruct (tick_executes_head a job rest Hc Hq) as (Hq1 & Hb1 & Hc1).
  split; [exact tick_returns|]. split; [apply tick_returns|].
  split; [exact Hq1|]. split.
  - unfold tick. rewrite Hc, Hq. simpl. unfold try_catch, call. simpl.
    rewrite Hthrow. reflexivity.
  - intros next rest' ->.
    destruct (tick_executes_head (tick a).2 next rest' Hc1 Hq1) as (Hq2 & Hb2 & _).
    split; [apply tick_returns|]. split; assumption.
Qed.

(** *** Rebuilding the runtime mapping *)

Lemma row_record_some ns row :
  is_Some (row_record ns row)
  <-> exists obj, doc row = Some obj /\ obj_type obj = str "state"
                  /\ truthy (recorded_ga obj) = true.
Proof.
  unfold row_record, recorded_ga. split.
  - intros [r Hr]. destruct (doc row) as [obj|]; [|discriminate].
    exists obj. split; [reflexivity|].
    destruct (bool_decide_reflect (obj_type obj = str "state")) as [Ht|Ht];
      simpl in Hr; [|discriminate].
    split; [exact Ht|].
    destruct (truthy (n_ga (default empty_native (native obj)))); [reflexivity|discriminate].
  - intros (obj & -> & Ht & Hga).
    rewrite bool_decide_eq_true_2 by exact Ht. simpl. rewrite Hga. simpl. eexists. reflexivity.
Qed.

Lemma row_record_flags ns row idRel meta :
  row_record ns row = Some (idRel, meta) ->
  exists obj, doc row = Some obj
    /\ readFlag (flags meta) = truthy (raw_readFlag (raw_flags_of obj))
    /\ writeFlag (flags meta) = truthy (raw_writeFlag (raw_flags_of obj))
    /\ updateFlag (flags meta) = truthy (raw_updateFlag (raw_flags_of obj))
    /\ transmitFlag (flags meta)
       = match raw_transmitFlag (raw_flags_of obj) with
         | JUndefined => true
         | v => truthy v
         end.
Proof.
  unfold row_record, raw_flags_of. destruct (doc row) as [obj|]; [|discriminate].
  destruct (negb (bool_decide _)); [discriminate|].
  destruct (negb (truthy _)); [discriminate|].
  intros [= <- <-]. exists obj. simpl. repeat split; reflexivity.
Qed.

(** Every record of the rebuilt mapping comes from a scanned row. *)
Lemma scan_rows_origin ns rows : forall m k meta,
  foldl (scan_row ns) m rows !! k = Some meta ->
  m !! k = Some meta \/ exists row, row ∈ rows /\ row_record ns row = Some (k, meta).
Proof.
  induction rows as [|row rows IH]; intros m k meta Hk; simpl in Hk; [left; exact Hk|].
  apply IH in Hk as [Hk | (row' & Hin & Hr)].
  - unfold scan_row in Hk. destruct (row_record ns row) as [[k' meta']|] eqn:E.
    + destruct (decide (k' = k)) as [->|Hne].
      * rewrite lookup_insert_eq in Hk. injection Hk as ->.
        right. exists row. split; [left | exact E].
      * rewrite lookup_insert_ne in Hk by assumption. left. exact Hk.
    + left. exact Hk.
  - right. exists row'. split; [right; exact Hin | exact Hr].
Qed.

(** A row with a record puts its identifier in the mapping. *)
Lemma scan_rows_keeps ns rows : forall m k,
  is_Some (m !! k) -> is_Some (foldl (scan_row ns) m rows !! k).
Proof.
  induction rows as [|row rows IH]; intros m k Hk; simpl; [exact Hk|].
  apply IH. unfold scan_row. destruct (row_record ns row) as [[k' meta']|]; [|exact Hk].
  destruct (decide (k' = k)) as [->|Hne].
  - rewrite lookup_insert_eq. eexists. reflexivity.
  - rewrite lookup_insert_ne by assumption. exact Hk.
Qed.

Lemma scan_rows_covers ns rows : forall m row k meta,
  row ∈ rows -> row_record ns row = Some (k, meta) ->
  is_Some (foldl (scan_row ns) m rows !! k).
Proof.
  induction rows as [|row0 rows IH]; intros m row k meta Hin Hr; [inversion Hin|].
  simpl. apply elem_of_cons in Hin as [->|Hin].
  - apply scan_rows_keeps. unfold scan_row. rewrite Hr, lookup_insert_eq.
    eexists. reflexivity.
  - eapply IH; eassumption.
Qed.

(** C7. During a rebuild, a scanned row yields a mapping record exactly when
    it carries a state object with a recorded (truthy) group address.  The
    rebuilt mapping holds only such records, and the identifier of every
    such row is in it.  On a record, transmit is true when the persisted
    field is absent, and read, write and update are false when theirs is. *)
Theorem rebuild_records (res : option (list ViewRow)) (a : Adapter) :
  (forall row,
      is_Some (row_record (namespace a) row)
      <-> exists obj, doc row = Some obj /\ obj_type obj = str "state"
                      /\ truthy (recorded_ga obj) = true)
  /\ (forall k meta,
        metaByStateId (rebuildRuntimeMapping res a) !! k = Some meta ->
        exists row, row ∈ default [] res /\ row_record (namespace a) row = Some (k, meta))
  /\ (forall row k meta,
        row ∈ default [] res -> row_record (namespace a) row = Some (k, meta) ->
        is_Some (metaByStateId (rebuildRuntimeMapping res a) !! k))
  /\ (forall row k meta,
        row_record (namespace a) row = Some (k, meta) ->
        exists obj, doc row = Some obj
          /\ (raw_transmitFlag (raw_flags_of obj) = JUndefined ->
                transmitFlag (flags meta) = true)
          /\ (raw_readFlag (raw_flags_of obj) = JUndefined -> readFlag (flags meta) = false)
          /\ (raw_writeFlag (raw_flags_of obj) = JUndefined -> writeFlag (flags meta) = false)
          /\ (raw_updateFlag (raw_flags_of obj) = JUndefined ->
                updateFlag (flags meta) = false)).
Proof.
  unfold rebuildRuntimeMapping. simpl.
  split; [intros row; apply row_record_some|].
  split; [|split].
  - intros k meta Hk. apply scan_rows_origin in Hk as [Hk|Hk]; [|exact Hk].
    rewrite lookup_empty in Hk. discriminate.
  - intros row k meta. apply scan_rows_covers.
  - intros row k meta Hr.
    destruct (row_record_flags _ _ _ _ Hr) as (obj & Hd & Hrd & Hwr & Hup & Htr).
    exists obj. split; [exact Hd|].
    rewrite Hrd, Hwr, Hup, Htr.
    repeat split; intros ->; reflexivity.
Qed.

(** *** Creating and updating persisted states *)

(** C10. After [upsertGaState], the object stored under the entry's
    identifier has its write permission set exactly when the entry's write
    flag or its read flag is set. *)
Theorem upsert_write_permission (entry : ImportEntry) (a : Adapter) :
  exists o,
    objects (upsertGaState entry a) !! id entry = Some o
    /\ (c_write (common o) = true
        <-> flag_of (entry_flags entry) writeFlag = true
            \/ flag_of (entry_flags entry) readFlag = true).
Proof.
  unfold upsertGaState, setObjectNotExists.
  destruct (objects a !! id entry) as [old|] eqn:E.
  - unfold extendObject. rewrite E. simpl. rewrite lookup_insert_eq.
    eexists. split; [reflexivity|]. simpl. apply orb_true_iff.
  - unfold extendObject. simpl. rewrite lookup_insert_eq. simpl.
    rewrite lookup_insert_eq.
    eexists. split; [reflexivity|]. simpl. apply orb_true_iff.
Qed.

End Engine.

Lemma acknowledged_event_ignored_witness :
  onStateChange (rt := Sample.runtime) JNaN Sample.event_id (Some (Sample.event true)) Sample.instance
  = Sample.instance
  /\ txQueue (onStateChange (rt := Sample.runtime) JNaN Sample.event_id (Some (Sample.event true))
                Sample.instance)
     = txQueue Sample.instance
  /\ states (onStateChange (rt := Sample.runtime) JNaN Sample.event_id (Some (Sample.event true))
               Sample.instance)
     = states Sample.instance
  /\ objects (onStateChange (rt := Sample.runtime) JNaN Sample.event_id (Some (Sample.event true))
                Sample.instance)
     = objects Sample.instance.
Proof.
  apply (acknowledged_event_ignored (rt := Sample.runtime) JNaN Sample.event_id
           (Sample.event true) Sample.instance).
  reflexivity.
Defined.

Lemma command_dispatch_witness :
  (writeFlag (flags Sample.lamp_meta) = true ->
     txQueue (onStateChange (rt := Sample.runtime) JNaN Sample.event_id (Some (Sample.event false))
                Sample.instance)
     = txQueue Sample.instance ++
       [{| fn := DpWrite Sample.lamp_dp
                   (KnxUtils.coerceToKnxValue (rt := Sample.runtime) JNaN
                      (val (Sample.event false)) (dpt Sample.lamp_meta));
           descr := str "write " ++ ga Sample.lamp_meta |}])
  /\ (writeFlag (flags Sample.lamp_meta) = false ->
      readFlag (flags Sample.lamp_meta) = true ->
        txQueue (onStateChange (rt := Sample.runtime) JNaN Sample.event_id
                   (Some (Sample.event false)) Sample.instance)
        = txQueue Sample.instance ++
          [{| fn := DpRead Sample.lamp_dp; descr := str "read " ++ ga Sample.lamp_meta |}])
  /\ (writeFlag (flags Sample.lamp_meta) = false ->
      readFlag (flags Sample.lamp_meta) = false ->
        txQueue (onStateChange (rt := Sample.runtime) JNaN Sample.event_id
                   (Some (Sample.event false)) Sample.instance)
        = txQueue Sample.instance).
Proof.
  apply (command_dispatch (rt := Sample.runtime) JNaN Sample.event_id (str "ga.floor.1_2_3")
           (Sample.event false) Sample.lamp_meta Sample.lamp_dp Sample.instance).
  - reflexivity.
  - reflexivity.
  - reflexivity.
  - vm_compute. reflexivity.
  - vm_compute. reflexivity.
Defined.

(** The string ["on"] written to a switch is queued as the boolean [true]. *)
Example write_on_is_queued :
  txQueue (onStateChange (rt := Sample.runtime) JNaN Sample.event_id (Some (Sample.event false))
             Sample.instance)
  = txQueue Sample.instance ++
    [{| fn := DpWrite Sample.lamp_dp (JBool true); descr := str "write 1/2/3" |}].
Proof. vm_compute. reflexivity. Qed.

Lemma throwing_job_is_dropped_witness :
  (forall a0 : Adapter (tp := Sample.transport), (tick a0).1 = Returned)
  /\ (tick Sample.instance).1 = Returned
  /\ txQueue (tick Sample.instance).2
     = [{| fn := DpRead Sample.lamp_dp; descr := str "read 1/2/3" |}]
  /\ log (tick Sample.instance).2
     = log Sample.instance ++
       [(Warn, str "KNX TX failed (" ++ str "read " ++ str "): " ++ exn_text Sample.no_address_exn)]
  /\ (forall next rest',
        [{| fn := DpRead Sample.lamp_dp; descr := str "read 1/2/3" |}] = next :: rest' ->
        (tick (tick Sample.instance).2).1 = Returned
        /\ bus (tick (tick Sample.instance).2).2
           = (perform (fn next) (bus (tick Sample.instance).2)).1
        /\ txQueue (tick (tick Sample.instance).2).2 = rest').
Proof.
  apply (throwing_job_is_dropped (tp := Sample.transport) Sample.instance
           {| fn := DpRead Sample.broken_dp; descr := str "read " |}
           [{| fn := DpRead Sample.lamp_dp; descr := str "read 1/2/3" |}]
           (@nil TxAction) Sample.no_address_exn).
  - reflexivity.
  - reflexivity.
  - reflexivity.
Defined.

(** After the failed job, the second tick sends the read that was queued
    behind it. *)
Example second_tick_sends :
  bus (tick (tick Sample.instance).2).2 = [DpRead Sample.lamp_dp]
  /\ txQueue (tick (tick Sample.instance).2).2 = [].
Proof. split; reflexivity. Qed.

(** A record persisted without transmit flag is rebuilt with transmit set;
    a state without group address is skipped. *)
Example rebuild_legacy_row :
  metaByStateId
    (rebuildRuntimeMapping (rt := Sample.runtime)
       (Some [Sample.legacy_row; Sample.foreign_row]) Sample.instance)
  = {[ str "ga.floor.1_2_3" :=
         {| ga := str "1/2/3"; dpt := Some (str "1.001");
            flags := {| readFlag := true; writeFlag := false;
                        transmitFlag := true; updateFlag := false |} |} ]}.
Proof. reflexivity. Qed.

(** A datapoint with only the read flag accepts store writes. *)
Example read_only_entry_is_writable :
  c_write <$> (common <$> objects (upsertGaState Sample.sensor_entry Sample.instance)
                            !! str "ga._manual.4_0_1")
  = Some true.
Proof. vm_compute. reflexivity. Qed.

End AdapterFacts.

(** ** Identifier segments *)

Module SanitizeFacts.

Import KnxUtils.

(** *** Stripping both ends *)

Lemma take_drop_while p s : take_while p s ++ drop_while p s = s.
Proof.
  induction s as [|c r IH]; simpl; [reflexivity|].
  destruct (p c); simpl; [rewrite IH|]; reflexivity.
Qed.

Lemma drop_while_head p s c : head (drop_while p s) = Some c -> p c = false.
Proof.
  induction s as [|x r IH]; simpl; [discriminate|].
  destruct (p x) eqn:E; [exact IH|]. simpl. intros [= <-]. exact E.
Qed.

Lemma drop_while_id p s : (forall c, head s = Some c -> p c = false) -> drop_while p s = s.
Proof.
  destruct s as [|x r]; simpl; [reflexivity|].
  intros Hh. rewrite (Hh x eq_refl). reflexivity.
Qed.

(** What [strip] returns sits inside its argument. *)
Lemma strip_infix p s : exists a b, s = a ++ strip p s ++ b.
Proof.
  unfold strip. exists (take_while p s).
  exists (reverse (take_while p (reverse (drop_while p s)))).
  rewrite <- reverse_app, take_drop_while, reverse_involutive, take_drop_while.
  reflexivity.
Qed.

Lemma strip_head p s c : head (strip p s) = Some c -> p c = false.
Proof.
  unfold strip. rewrite head_reverse. intros Hl.
  set (x := drop_while p s) in *.
  assert (Hx : last (reverse x) = Some c).
  { rewrite <- (take_drop_while p (reverse x)), last_app, Hl. reflexivity. }
  rewrite last_reverse in Hx.
  apply (drop_while_head p s). exact Hx.
Qed.

Lemma strip_last p s c : last (strip p s) = Some c -> p c = false.
Proof. unfold strip. rewrite last_reverse. apply drop_while_head. Qed.

Lemma strip_id p s :
  (forall c, head s = Some c -> p c = false) ->
  (forall c, last s = Some c -> p c = false) ->
  strip p s = s.
Proof.
  intros Hh Hl. unfold strip. rewrite (drop_while_id p s) by exact Hh.
  rewrite drop_while_id; [apply reverse_involutive|].
  intros c. rewrite head_reverse. apply Hl.
Qed.

(** *** Character classes *)

Ltac to_arith H :=
  unfold is_safe, is_space, is_digit, is_underscore, underscore, hyphen in H;
  rewrite ?orb_true_iff, ?andb_true_iff, ?N.leb_le, ?N.eqb_eq in H.

Lemma safe_range c : is_safe c = true -> (45 <= c <= 122)%N.
Proof. intros Hs. to_arith Hs. lia. Qed.

Lemma space_range c : is_space c = true -> (c <= 32 \/ 160 <= c)%N.
Proof. intros Hs. to_arith Hs. lia. Qed.

Lemma safe_not_space c : is_safe c = true -> is_space c = false.
Proof.
  intros Hs. apply safe_range in Hs.
  destruct (is_space c) eqn:E; [|reflexivity].
  apply space_range in E. lia.
Qed.

Lemma underscore_safe : is_safe underscore = true.
Proof. reflexivity. Qed.

(** *** The replacements *)

Lemma replace_runs_Forall (Q : N -> Prop) p s :
  Q underscore -> Forall Q s -> Forall Q (replace_runs p s).
Proof.
  intros Hu. induction 1 as [|c r Hc Hr IH]; simpl; [constructor|].
  destruct (p c).
  - destruct r as [|c' r']; [repeat constructor; exact Hu|].
    destruct (p c'); [exact IH | constructor; [exact Hu | exact IH]].
  - constructor; assumption.
Qed.

Lemma replace_runs_id p s : Forall (fun c => p c = false) s -> replace_runs p s = s.
Proof.
  induction 1 as [|c r Hc Hr IH]; simpl; [reflexivity|].
  rewrite Hc, IH. reflexivity.
Qed.

Lemma replace_unsafe_safe s : Forall (fun c => is_safe c = true) (replace_unsafe s).
Proof.
  unfold replace_unsafe. induction s as [|c r IH]; simpl; constructor; [|exact IH].
  destruct (is_safe c) eqn:E; [exact E | apply underscore_safe].
Qed.

Lemma replace_unsafe_id s : Forall (fun c => is_safe c = true) s -> replace_unsafe s = s.
Proof.
  unfold replace_unsafe. induction 1 as [|c r Hc Hr IH]; simpl; [reflexivity|].
  rewrite Hc, IH. reflexivity.
Qed.

(** Collapsing the runs of underscores leaves no two in a row, and a string
    without two in a row is not changed by it. *)
Lemma collapse_no_double s : no_double (replace_runs is_underscore s) = true.
Proof.
  induction s as [|c r IH]; [reflexivity|].
  destruct r as [|c' r'].
  - simpl. destruct (is_underscore c); reflexivity.
  - change (replace_runs is_underscore (c :: c' :: r'))
      with (if is_underscore c then
              if is_underscore c' then replace_runs is_underscore (c' :: r')
              else underscore :: replace_runs is_underscore (c' :: r')
            else c :: replace_runs is_underscore (c' :: r')).
    destruct (is_underscore c) eqn:Ec.
    + destruct (is_underscore c') eqn:Ec'; [exact IH|].
      revert IH. simpl. rewrite Ec'. intros IH.
      change (no_double (underscore :: c' :: replace_runs is_underscore r'))
        with (negb (is_underscore underscore && is_underscore c')
              && no_double (c' :: replace_runs is_underscore r')).
      rewrite Ec', IH. reflexivity.
    + destruct (replace_runs is_underscore (c' :: r')) as [|x X]; [reflexivity|].
      change (no_double (c :: x :: X))
        with (negb (is_underscore c && is_underscore x) && no_double (x :: X)).
      rewrite Ec, IH. reflexivity.
Qed.

Lemma no_double_tail c r : no_double (c :: r) = true -> no_double r = true.
Proof.
  destruct r as [|c' r']; [reflexivity|].
  change (no_double (c :: c' :: r'))
    with (negb (is_underscore c && is_underscore c') && no_double (c' :: r')).
  intros Hn. apply andb_true_iff in Hn as [_ Hn]. exact Hn.
Qed.

Lemma no_double_fixed s : no_double s = true -> replace_runs is_underscore s = s.
Proof.
  induction s as [|c r IH]; [reflexivity|]. intros Hn.
  pose proof (IH (no_double_tail _ _ Hn)) as IHr.
  destruct r as [|c' r'].
  - simpl. destruct (is_underscore c) eqn:Ec; [|reflexivity].
    apply N.eqb_eq in Ec. subst c. reflexivity.
  - change (replace_runs is_underscore (c :: c' :: r'))
      with (if is_underscore c then
              if is_underscore c' then replace_runs is_underscore (c' :: r')
              else underscore :: replace_runs is_underscore (c' :: r')
            else c :: replace_runs is_underscore (c' :: r')).
    change (no_double (c :: c' :: r'))
      with (negb (is_underscore c && is_underscore c') && no_double (c' :: r')) in Hn.
    apply andb_true_iff in Hn as [Hcc _].
    destruct (is_underscore c) eqn:Ec.
    + destruct (is_underscore c') eqn:Ec'; [discriminate Hcc|].
      apply N.eqb_eq in Ec. subst c. rewrite IHr. reflexivity.
    + rewrite IHr. reflexivity.
Qed.

Lemma no_double_app s t :
  no_double (s ++ t) = true -> no_double s = true /\ no_double t = true.
Proof.
  induction s as [|c r IH]; simpl app; [intros Hn; split; [reflexivity | exact Hn]|].
  intros Hn. pose proof (IH (no_double_tail _ _ Hn)) as [Hr Ht].
  split; [|exact Ht].
  destruct r as [|c' r']; [reflexivity|].
  change (no_double (c :: c' :: r'))
    with (negb (is_underscore c && is_underscore c') && no_double (c' :: r')).
  change (no_double ((c :: c' :: r') ++ t))
    with (negb (is_underscore c && is_underscore c') && no_double ((c' :: r') ++ t)) in Hn.
  apply andb_true_iff in Hn as [Hcc _]. rewrite Hcc, Hr. reflexivity.
Qed.

(** Both survive [strip]. *)
Lemma strip_Forall (Q : N -> Prop) p s : Forall Q s -> Forall Q (strip p s).
Proof.
  intros Hs. destruct (strip_infix p s) as (a & b & E). rewrite E in Hs.
  apply Forall_app in Hs as [_ Hs]. apply Forall_app in Hs as [Hs _]. exact Hs.
Qed.

Lemma strip_no_double p s : no_double s = true -> no_double (strip p s) = true.
Proof.
  intros Hs. destruct (strip_infix p s) as (a & b & E). rewrite E in Hs.
  apply no_double_app in Hs as [_ Hs]. apply no_double_app in Hs as [Hs _]. exact Hs.
Qed.

(** *** The result of the chain *)

Lemma chain_safe s : Forall (fun c => is_safe c = true) (sanitize_chain s).
Proof.
  unfold sanitize_chain. apply strip_Forall.
  apply replace_runs_Forall; [apply underscore_safe | apply replace_unsafe_safe].
Qed.

Lemma chain_no_double s : no_double (sanitize_chain s) = true.
Proof. unfold sanitize_chain. apply strip_no_double, collapse_no_double. Qed.

Lemma chain_no_space s : Forall (fun c => is_space c = false) (sanitize_chain s).
Proof. eapply Forall_impl; [apply chain_safe | apply safe_not_space]. Qed.

(** The chain does not change what it has produced. *)
Lemma chain_fixed s : sanitize_chain (sanitize_chain s) = sanitize_chain s.
Proof.
  pose proof (chain_no_space s) as Hsp. rewrite Forall_forall in Hsp.
  set (r := sanitize_chain s) in *.
  assert (Htrim : trim r = r).
  { apply strip_id; intros c Hc; apply Hsp.
    - eapply head_Some_elem_of, Hc.
    - eapply last_Some_elem_of, Hc. }
  unfold sanitize_chain at 1. rewrite Htrim.
  rewrite (replace_runs_id is_space r) by apply chain_no_space.
  rewrite (replace_unsafe_id r) by apply chain_safe.
  rewrite (no_double_fixed r) by apply chain_no_double.
  apply strip_id; intros c Hc.
  - exact (strip_head _ _ _ Hc).
  - exact (strip_last _ _ _ Hc).
Qed.

Lemma unnamed_fixed : sanitizeIdSegment (JString (str "unnamed")) = str "unnamed".
Proof. reflexivity. Qed.

(** C8. For every input string the result is not empty and consists of
    ASCII letters, digits, underscores and hyphens only; when the chain of
    replacements leaves nothing, the result is the literal ["unnamed"]. *)
Theorem sanitized_segment_safe (name : jsstr) :
  sanitizeIdSegment (JString name) <> []
  /\ Forall (fun c => is_safe c = true) (sanitizeIdSegment (JString name))
  /\ (sanitize_chain name = [] -> sanitizeIdSegment (JString name) = str "unnamed").
Proof.
  pose proof (chain_safe name) as Hsafe. unfold sanitizeIdSegment.
  destruct (sanitize_chain name) as [|c r].
  - split; [discriminate|]. split; [|reflexivity].
    apply Forall_forall. intros c Hc. vm_compute in Hc.
    repeat (apply elem_of_cons in Hc as [->|Hc]; [reflexivity|]).
    inversion Hc.
  - split; [discriminate|]. split; [exact Hsafe | discriminate].
Qed.

(** C9. Sanitizing a sanitized segment gives the same segment. *)
Theorem sanitize_idempotent (name : JsVal) :
  sanitizeIdSegment (JString (sanitizeIdSegment name)) = sanitizeIdSegment name.
Proof.
  destruct name as [| |b|n|name|t]; try apply unnamed_fixed.
  assert (R : sanitizeIdSegment (JString name)
              = match sanitize_chain name with [] => str "unnamed" | r => r end)
    by reflexivity.
  rewrite R. clear R.
  destruct (sanitize_chain name) as [|c r] eqn:E; [apply unnamed_fixed|].
  rewrite <- E. unfold sanitizeIdSegment. rewrite chain_fixed, E. reflexivity.
Qed.

Example sanitize_living_room :
  sanitizeIdSegment (JString (str "  Living  room (EG) ")) = str "Living_room_EG".
Proof. reflexivity. Qed.

Example sanitize_only_symbols : sanitizeIdSegment (JString (str " /// ")) = str "unnamed".
Proof. reflexivity. Qed.

(** *** Shape of a segment *)

Lemma safe_not_dot c : is_safe c = true -> c <> dot_char.
Proof. intros Hs ->. discriminate Hs. Qed.

Lemma sanitize_cases name :
  sanitizeIdSegment name = str "unnamed"
  \/ exists s, name = JString s /\ sanitizeIdSegment name = sanitize_chain s.
Proof.
  destruct name as [| |b|n|s|t]; try (left; reflexivity).
  unfold sanitizeIdSegment. destruct (sanitize_chain s) eqn:E; [left; reflexivity|].
  right. exists s. split; [reflexivity | rewrite E; reflexivity].
Qed.

Lemma segment_nonempty name : sanitizeIdSegment name <> [].
Proof.
  destruct (sanitize_cases name) as [-> | (s & -> & E)]; [discriminate|].
  unfold sanitizeIdSegment. destruct (sanitize_chain s); discriminate.
Qed.

Lemma segment_dot_free name : Forall (fun c => c <> dot_char) (sanitizeIdSegment name).
Proof.
  destruct (sanitize_cases name) as [-> | (s & _ & ->)].
  - repeat constructor; discriminate.
  - eapply Forall_impl; [apply chain_safe | apply safe_not_dot].
Qed.

(** The chain leaves a string alone that is already in its final form. *)
Lemma chain_id x :
  Forall (fun c => is_safe c = true) x ->
  no_double x = true ->
  (forall c, head x = Some c -> is_underscore c = false) ->
  (forall c, last x = Some c -> is_underscore c = false) ->
  sanitize_chain x = x.
Proof.
  intros Hsafe Hnd Hh Hl.
  assert (Hsp : Forall (fun c => is_space c = false) x)
    by (eapply Forall_impl; [exact Hsafe | apply safe_not_space]).
  assert (Htrim : trim x = x).
  { rewrite Forall_forall in Hsp. apply strip_id; intros c Hc; apply Hsp.
    - eapply head_Some_elem_of, Hc.
    - eapply last_Some_elem_of, Hc. }
  unfold sanitize_chain. rewrite Htrim.
  rewrite (replace_runs_id is_space x) by exact Hsp.
  rewrite (replace_unsafe_id x) by exact Hsafe.
  rewrite (no_double_fixed x) by exact Hnd.
  apply strip_id; assumption.
Qed.

(** A segment never begins or ends with an underscore, never has two
    underscores in a row, and contains no dot, slash or white space: it can
    be joined with dots and split again. *)
Theorem sanitized_segment_shape (name : JsVal) :
  head (sanitizeIdSegment name) <> Some underscore
  /\ last (sanitizeIdSegment name) <> Some underscore
  /\ no_double (sanitizeIdSegment name) = true
  /\ Forall (fun c => c <> dot_char /\ c <> slash /\ is_space c = false)
       (sanitizeIdSegment name).
Proof.
  destruct (sanitize_cases name) as [-> | (s & _ & ->)].
  - split; [discriminate|]. split; [discriminate|]. split; [reflexivity|].
    repeat constructor; discriminate.
  - split; [|split; [|split]].
    + intros Hh. apply strip_head in Hh. discriminate Hh.
    + intros Hl. apply strip_last in Hl. discriminate Hl.
    + apply chain_no_double.
    + eapply Forall_impl; [apply chain_safe|]. intros c Hc. simpl.
      split; [apply safe_not_dot, Hc|].
      split; [intros ->; discriminate Hc | apply safe_not_space, Hc].
Qed.

End SanitizeFacts.

(** ** More on the address codec *)

Module CodecWrap.

Import KnxUtils Codec.

Lemma masked_is_remainder q : Z.land (ToInt32 q) 0xffff = truncQ q mod 65536.
Proof.
  change 0xffff with (Z.ones 16). rewrite Z.land_ones by lia.
  change (2 ^ 16) with 65536. unfold ToInt32.
  set (t := truncQ q).
  assert (E : (t mod 2 ^ 32) mod 65536 = t mod 65536).
  { apply Z.mod_mod_divide. exists 65536. reflexivity. }
  destruct (Z.leb_spec (2 ^ 31) (t mod 2 ^ 32)); [|exact E].
  rewrite <- E.
  replace (t mod 2 ^ 32 - 2 ^ 32) with (t mod 2 ^ 32 + (-65536) * 65536) by lia.
  apply Z.mod_add. lia.
Qed.

Section Wrap.
Context {rt : JsRuntime}.

(** Any finite number is rendered as the address it wraps to: the number is
    truncated toward zero and reduced modulo 65536 before it is split into
    fields, so out-of-range and fractional input never fails. *)
Theorem rendering_wraps (q : Q) (style : jsstr) :
  groupAddressNumberToString (JNumber (JFin q)) style
  = groupAddressNumberToString (address (truncQ q mod 65536)) style
  /\ 0 <= truncQ q mod 65536 <= 65535
  /\ decodeAddress (str "TwoLevel")
       (groupAddressNumberToString (JNumber (JFin q)) (str "TwoLevel"))
     = Some (truncQ q mod 65536)
  /\ decodeAddress (str "ThreeLevel")
       (groupAddressNumberToString (JNumber (JFin q)) (str "ThreeLevel"))
     = Some (truncQ q mod 65536).
Proof.
  assert (Hr : 0 <= truncQ q mod 65536 <= 65535)
    by (pose proof (Z.mod_pos_bound (truncQ q) 65536); lia).
  assert (E : forall st, groupAddressNumberToString (JNumber (JFin q)) st
                         = groupAddressNumberToString (address (truncQ q mod 65536)) st).
  { intros st. unfold groupAddressNumberToString, address.
    rewrite masked_is_remainder, CodecFacts.ToInt32_small, CodecFacts.land_ffff by lia.
    reflexivity. }
  split; [apply E|]. split; [exact Hr|].
  rewrite !E. split; apply CodecFacts.decode_render; auto.
Qed.

End Wrap.

(** 65536 + 2048 + 5 and -1 wrap to 1/0/5 and 31/7/255. *)
Example render_wrapped :
  groupAddressNumberToString (rt := Sample.runtime) (address 67589) (str "ThreeLevel")
  = str "1/0/5"
  /\ groupAddressNumberToString (rt := Sample.runtime) (address (-1)) (str "ThreeLevel")
     = str "31/7/255".
Proof. split; reflexivity. Qed.

End CodecWrap.

(** ** Type codes *)

Module TypeCodeFacts.

Import KnxUtils.

Example type_code_forms :
  etsDptToKnxDpt (rt := Sample.runtime) (Some (str "DPST-1-1")) = Some (str "1.001")
  /\ etsDptToKnxDpt (rt := Sample.runtime) (Some (str "DPT-5")) = Some (str "5")
  /\ etsDptToKnxDpt (rt := Sample.runtime) (Some (str " 9.010 ")) = Some (str "9.010")
  /\ etsDptToKnxDpt (rt := Sample.runtime) (Some (str "DPST-14-1200")) = Some (str "14.1200")
  /\ etsDptToKnxDpt (rt := Sample.runtime) (Some (str "not-a-dpt")) = None
  /\ etsDptToKnxDpt (rt := Sample.runtime) (Some (str "DPT-")) = None
  /\ etsDptToKnxDpt (rt := Sample.runtime) (Some (str "DPST-1-")) = None
  /\ etsDptToKnxDpt (rt := Sample.runtime) (Some (str "   ")) = None.
Proof. repeat split; reflexivity. Qed.

(** *** Digit strings *)

Lemma fold_digits_acc d : forall acc,
  fold_left (fun acc c : N => (acc * 10 + (c - 48))%N) (uint_codes d) (N.pos acc)
  = N.pos (Pos.of_uint_acc d acc).
Proof.
  induction d; intros acc; cbn [uint_codes fold_left Pos.of_uint_acc];
    [reflexivity | rewrite <- IHd; f_equal; lia ..].
Qed.

Lemma digits_value_codes d : digits_value (uint_codes d) = N.of_uint d.
Proof.
  unfold digits_value.
  induction d; cbn [uint_codes fold_left N.of_uint Pos.of_uint];
    try reflexivity; try exact IHd;
    rewrite <- fold_digits_acc; reflexivity.
Qed.

Lemma digits_value_decimal z : 0 <= z -> digits_value (decimal z) = Z.to_N z.
Proof.
  intros _. unfold decimal. rewrite digits_value_codes. apply DecimalN.Unsigned.of_to.
Qed.

Lemma decimal_digits z : Forall (fun c => is_digit c = true) (decimal z).
Proof. apply CodecFacts.uint_codes_digits. Qed.

Lemma decimal_nonempty z : decimal z <> [].
Proof.
  unfold decimal. pose proof (CodecFacts.to_uint_not_nil (Z.to_N z)) as Hn.
  destruct (N.to_uint (Z.to_N z)); try contradiction; discriminate.
Qed.

Lemma forallb_digits s : forallb is_digit s = true <-> Forall (fun c => is_digit c = true) s.
Proof.
  induction s as [|c r IH]; simpl.
  - split; [constructor | reflexivity].
  - rewrite andb_true_iff, IH, Forall_cons. reflexivity.
Qed.

Lemma all_digits_spec s :
  all_digits s = true <-> s <> [] /\ Forall (fun c => is_digit c = true) s.
Proof.
  destruct s as [|c r]; [simpl; split; [discriminate | intros [E _]; contradiction]|].
  unfold all_digits. rewrite forallb_digits. split; [intros Hd; split; [discriminate|exact Hd]|tauto].
Qed.

Lemma all_digits_decimal z : all_digits (decimal z) = true.
Proof. apply all_digits_spec. split; [apply decimal_nonempty | apply decimal_digits]. Qed.

(** A run of digits in front of something that is not a digit. *)
Lemma take_digits d rest :
  Forall (fun c => is_digit c = true) d ->
  (forall c, head rest = Some c -> is_digit c = false) ->
  take_while is_digit (d ++ rest) = d /\ drop_while is_digit (d ++ rest) = rest.
Proof.
  intros Hd Hr. induction Hd as [|c r Hc _ [IH1 IH2]]; simpl.
  - destruct rest as [|x rest]; [split; reflexivity|].
    simpl. rewrite (Hr x eq_refl). split; reflexivity.
  - rewrite Hc, IH1, IH2. split; reflexivity.
Qed.

Lemma digit_not_space c : is_digit c = true -> is_space c = false.
Proof.
  intros Hd. apply SanitizeFacts.safe_not_space. unfold is_safe. rewrite Hd.
  rewrite orb_true_r. reflexivity.
Qed.

Lemma trim_fixed s : trim (trim s) = trim s.
Proof.
  unfold trim. apply SanitizeFacts.strip_id; intros c Hc.
  - exact (SanitizeFacts.strip_head _ _ _ Hc).
  - exact (SanitizeFacts.strip_last _ _ _ Hc).
Qed.

(** [trim] leaves a string alone that neither begins nor ends with space. *)
Lemma trim_id s first last_ :
  head s = Some first -> last s = Some last_ ->
  is_space first = false -> is_space last_ = false -> trim s = s.
Proof.
  intros Hh Hl Hf Hla. unfold trim. apply SanitizeFacts.strip_id; intros c Hc.
  - rewrite Hh in Hc. injection Hc as <-. exact Hf.
  - rewrite Hl in Hc. injection Hc as <-. exact Hla.
Qed.

Lemma last_digit s :
  s <> [] -> Forall (fun c => is_digit c = true) s ->
  exists c, last s = Some c /\ is_digit c = true.
Proof.
  intros Hne Hd. destruct (last s) as [c|] eqn:E.
  - exists c. split; [reflexivity|].
    rewrite Forall_forall in Hd. apply Hd. eapply last_Some_elem_of, E.
  - apply last_None in E. contradiction.
Qed.

Lemma head_digit s :
  s <> [] -> Forall (fun c => is_digit c = true) s ->
  exists c r, s = c :: r /\ is_digit c = true.
Proof.
  intros Hne Hd. destruct s as [|c r]; [contradiction|].
  exists c, r. split; [reflexivity|]. apply Forall_cons in Hd as [Hc _]. exact Hc.
Qed.

(** *** Normalising project type identifiers *)

Lemma padStart3_digits d :
  d <> [] -> Forall (fun c => is_digit c = true) d ->
  padStart3 d <> [] /\ Forall (fun c => is_digit c = true) (padStart3 d).
Proof.
  intros Hne Hd. unfold padStart3. split.
  - destruct d; [contradiction|]. intros E. apply app_eq_nil in E as [_ E]. discriminate.
  - apply Forall_app. split; [|exact Hd].
    apply Forall_replicate. reflexivity.
Qed.

(** A digit string, alone or followed by a dot and more digits, has the
    numeric shape and is not changed by [trim]. *)
Lemma numeric_shape_major d :
  d <> [] -> Forall (fun c => is_digit c = true) d ->
  numeric_shape d = true /\ trim d = d /\ take_while is_digit d = d.
Proof.
  intros Hne Hd.
  destruct (take_digits d [] Hd) as [Ht Hdr]; [discriminate|].
  rewrite app_nil_r in Ht, Hdr.
  destruct (head_digit d Hne Hd) as (c & r & E & Hc).
  destruct (last_digit d Hne Hd) as (l & Hl & Hld).
  split; [|split; [|exact Ht]].
  - unfold numeric_shape. rewrite Ht, Hdr. rewrite E. reflexivity.
  - apply (trim_id d c l); [rewrite E; reflexivity | exact Hl | | ];
      apply digit_not_space; assumption.
Qed.

Lemma numeric_shape_dotted d m :
  d <> [] -> Forall (fun c => is_digit c = true) d ->
  m <> [] -> Forall (fun c => is_digit c = true) m ->
  numeric_shape (d ++ dot_char :: m) = true
  /\ trim (d ++ dot_char :: m) = d ++ dot_char :: m
  /\ take_while is_digit (d ++ dot_char :: m) = d.
Proof.
  intros Hne Hd Hme Hm.
  destruct (take_digits d (dot_char :: m) Hd) as [Ht Hdr];
    [intros c [= <-]; reflexivity|].
  destruct (head_digit d Hne Hd) as (c & r & E & Hc).
  destruct (last_digit m Hme Hm) as (l & Hl & Hld).
  split; [|split; [|exact Ht]].
  - unfold numeric_shape. rewrite Ht, Hdr, E.
    apply forallb_digits in Hm. rewrite Hm. destruct m; [contradiction | reflexivity].
  - apply (trim_id _ c l).
    + rewrite E. reflexivity.
    + rewrite last_app, last_cons, Hl. reflexivity.
    + apply digit_not_space, Hc.
    + apply digit_not_space, Hld.
Qed.

Section Normalise.
Context {rt : JsRuntime}.

(** A string of numeric shape that [trim] leaves alone is returned as it
    is. *)
Lemma numeric_passes s :
  s <> [] -> trim s = s -> numeric_shape s = true -> etsDptToKnxDpt (Some s) = Some s.
Proof.
  intros Hne Ht Hs. unfold etsDptToKnxDpt. destruct s as [|c r]; [contradiction|].
  rewrite Ht, Hs. reflexivity.
Qed.

Lemma dptMajor_reads s d :
  s <> [] -> trim s = s -> numeric_shape s = true -> take_while is_digit s = d ->
  (digits_value d < 2 ^ 53)%N ->
  dptMajor (Some s) = Some (digits_value d).
Proof.
  intros Hne Ht Hs Hd Hv. unfold dptMajor. destruct s as [|c r]; [contradiction|].
  rewrite Ht. revert Hs. unfold numeric_shape. rewrite Hd. intros ->.
  assert (Hlt : (digits_value d <? overflow_threshold)%N = true).
  { apply N.ltb_lt. eapply N.lt_trans; [exact Hv|]. reflexivity. }
  rewrite Hlt. reflexivity.
Qed.

Lemma int_string_exact d :
  (digits_value d < 2 ^ 53)%N -> int_string d = decimal (Z.of_N (digits_value d)).
Proof. intros Hv. unfold int_string. apply N.ltb_lt in Hv. rewrite Hv. reflexivity. Qed.

(** For digit strings that denote numbers below 2^53: ["DPST-<major>-<minor>"]
    becomes the major without leading zeros, a dot, and the minor padded to
    three digits; ["DPT-<major>"] becomes the major.  Both results are
    type codes this module reads back: [dptMajor] gives the major number, and
    normalising the result again returns it unchanged. *)
Theorem type_code_normal_form (major minor : jsstr) :
  all_digits major = true ->
  all_digits minor = true ->
  (digits_value major < 2 ^ 53)%N ->
  (digits_value minor < 2 ^ 53)%N ->
  etsDptToKnxDpt (Some (str "DPST-" ++ major ++ hyphen :: minor))
  = Some (decimal (Z.of_N (digits_value major)) ++ dot_char ::
          padStart3 (decimal (Z.of_N (digits_value minor))))
  /\ etsDptToKnxDpt (Some (str "DPT-" ++ major))
     = Some (decimal (Z.of_N (digits_value major)))
  /\ dptMajor (Some (decimal (Z.of_N (digits_value major)) ++ dot_char ::
                     padStart3 (decimal (Z.of_N (digits_value minor)))))
     = Some (digits_value major)
  /\ dptMajor (Some (decimal (Z.of_N (digits_value major)))) = Some (digits_value major)
  /\ etsDptToKnxDpt (Some (decimal (Z.of_N (digits_value major)) ++ dot_char ::
                           padStart3 (decimal (Z.of_N (digits_value minor)))))
     = Some (decimal (Z.of_N (digits_value major)) ++ dot_char ::
             padStart3 (decimal (Z.of_N (digits_value minor))))
  /\ etsDptToKnxDpt (Some (decimal (Z.of_N (digits_value major))))
     = Some (decimal (Z.of_N (digits_value major))).
Proof.
  intros Hmaj Hmin Vmaj Vmin.
  apply all_digits_spec in Hmaj as [Nmaj Dmaj].
  pose proof Hmin as Amin. apply all_digits_spec in Hmin as [Nmin Dmin].
  destruct (last_digit major Nmaj Dmaj) as (lj & Hlj & Dlj).
  destruct (last_digit minor Nmin Dmin) as (li & Hli & Dli).
  set (n := decimal (Z.of_N (digits_value major))).
  set (m := padStart3 (decimal (Z.of_N (digits_value minor)))).
  assert (Vn : digits_value n = digits_value major).
  { unfold n. rewrite digits_value_decimal, N2Z.id by lia. reflexivity. }
  pose proof (decimal_nonempty (Z.of_N (digits_value major))) as Nn.
  pose proof (decimal_digits (Z.of_N (digits_value major))) as Dn.
  destruct (padStart3_digits (decimal (Z.of_N (digits_value minor)))
              (decimal_nonempty _) (decimal_digits _)) as [Nm Dm].
  fold n in Nn, Dn. fold m in Nm, Dm.
  destruct (numeric_shape_major n Nn Dn) as (S1 & T1 & K1).
  destruct (numeric_shape_dotted n m Nn Dn Nm Dm) as (S2 & T2 & K2).
  assert (Ndot : n ++ dot_char :: m <> []) by (destruct n; discriminate).
  repeat split.
  - (* DPST *)
    unfold etsDptToKnxDpt.
    rewrite (trim_id (str "DPST-" ++ major ++ hyphen :: minor) 68%N li);
      [ | reflexivity
        | rewrite !last_app, last_cons, Hli; reflexivity
        | reflexivity
        | apply digit_not_space, Dli ].
    destruct (take_digits major (hyphen :: minor) Dmaj) as [Ht Hd];
      [intros c [= <-]; reflexivity|].
    cbn [str list_ascii_of_string List.map app numeric_shape take_while drop_while
           after_prefix N_of_ascii N_of_digits is_digit].
    simpl. rewrite Ht, Hd.
    destruct major as [|c r]; [contradiction|].
    rewrite N.eqb_refl, Amin. simpl.
    rewrite !int_string_exact by assumption. reflexivity.
  - (* DPT *)
    unfold etsDptToKnxDpt.
    rewrite (trim_id (str "DPT-" ++ major) 68%N lj);
      [ | reflexivity
        | rewrite !last_app, Hlj; reflexivity
        | reflexivity
        | apply digit_not_space, Dlj ].
    simpl.
    assert (A : all_digits major = true) by (apply all_digits_spec; split; assumption).
    rewrite A, int_string_exact by assumption. reflexivity.
  - rewrite <- Vn. apply dptMajor_reads; try assumption. rewrite Vn. exact Vmaj.
  - rewrite <- Vn. apply dptMajor_reads; try assumption. rewrite Vn. exact Vmaj.
  - apply numeric_passes; assumption.
  - apply numeric_passes; assumption.
Qed.

End Normalise.

Lemma type_code_normal_form_witness :
  etsDptToKnxDpt (rt := Sample.runtime) (Some (str "DPST-" ++ str "09" ++ hyphen :: str "7"))
  = Some (decimal (Z.of_N (digits_value (str "09"))) ++ dot_char ::
          padStart3 (decimal (Z.of_N (digits_value (str "7")))))
  /\ etsDptToKnxDpt (rt := Sample.runtime) (Some (str "DPT-" ++ str "09"))
     = Some (decimal (Z.of_N (digits_value (str "09"))))
  /\ dptMajor (Some (decimal (Z.of_N (digits_value (str "09"))) ++ dot_char ::
                     padStart3 (decimal (Z.of_N (digits_value (str "7"))))))
     = Some (digits_value (str "09"))
  /\ dptMajor (Some (decimal (Z.of_N (digits_value (str "09")))))
     = Some (digits_value (str "09"))
  /\ etsDptToKnxDpt (rt := Sample.runtime)
       (Some (decimal (Z.of_N (digits_value (str "09"))) ++ dot_char ::
              padStart3 (decimal (Z.of_N (digits_value (str "7"))))))
     = Some (decimal (Z.of_N (digits_value (str "09"))) ++ dot_char ::
             padStart3 (decimal (Z.of_N (digits_value (str "7")))))
  /\ etsDptToKnxDpt (rt := Sample.runtime)
       (Some (decimal (Z.of_N (digits_value (str "09")))))
     = Some (decimal (Z.of_N (digits_value (str "09")))).
Proof.
  apply (type_code_normal_form (rt := Sample.runtime) (str "09") (str "7")).
  - reflexivity.
  - reflexivity.
  - reflexivity.
  - reflexivity.
Defined.

Example dpst_leading_zero :
  etsDptToKnxDpt (rt := Sample.runtime) (Some (str "DPST-09-7")) = Some (str "9.007").
Proof. reflexivity. Qed.

(** *** Reading the major number, and what depends on it *)

Lemma dptMajor_trim s : dptMajor (Some s) = dptMajor (Some (trim s)).
Proof.
  unfold dptMajor. destruct s as [|c r]; [reflexivity|].
  destruct (trim (c :: r)) as [|c' r'] eqn:E; [reflexivity|].
  rewrite <- E, trim_fixed. reflexivity.
Qed.

Section Coercion.
Context {rt : JsRuntime}.

(** White space around a type code changes neither the major number read
    from it, nor the store type and role inferred, nor the coercion of
    values. *)
Theorem type_code_spaces_ignored (s : jsstr) (now : JsNum) (v : JsVal) :
  dptMajor (Some s) = dptMajor (Some (trim s))
  /\ inferCommonFromDpt (Some s) = inferCommonFromDpt (Some (trim s))
  /\ coerceToKnxValue now v (Some s) = coerceToKnxValue now v (Some (trim s)).
Proof.
  unfold inferCommonFromDpt, coerceToKnxValue.
  rewrite <- dptMajor_trim. repeat split.
Qed.

Lemma by_major {A} (m : option N) (a b c d : A) :
  match m with
  | Some 1%N => a
  | Some 16%N => b
  | Some 19%N => c
  | _ => d
  end
  = if decide (m = Some 1%N) then a
    else if decide (m = Some 16%N) then b
    else if decide (m = Some 19%N) then c
    else d.
Proof.
  destruct m as [[|p]|]; try reflexivity.
  do 5 (try (destruct p as [p|p|]; try reflexivity)).
Qed.

Ltac split_major :=
  rewrite !by_major;
  repeat match goal with
  | |- context [decide (?m = Some ?k)] => destruct (decide (m = Some k)) as [?E|?E]
  end;
  try congruence.

Lemma coerce_boolean now v dpt :
  dptMajor dpt = Some 1%N -> exists b, coerceToKnxValue now v dpt = JBool b.
Proof.
  intros E. unfold coerceToKnxValue. rewrite E.
  destruct v as [| |b|[|neg|q]|s|t]; simpl; eauto.
  repeat match goal with |- context [if ?c then _ else _] => destruct c end; eauto.
Qed.

Lemma coerce_text now v dpt :
  dptMajor dpt = Some 16%N -> exists s, coerceToKnxValue now v dpt = JString s.
Proof.
  intros E. unfold coerceToKnxValue. rewrite E. destruct v; eauto.
Qed.

Lemma coerce_date now v dpt :
  dptMajor dpt = Some 19%N -> exists t, coerceToKnxValue now v dpt = JDate t.
Proof.
  intros E. unfold coerceToKnxValue. rewrite E. destruct v; eauto.
  destruct (is_finite (date_parse s)); eauto.
Qed.

Lemma coerce_numeric now v dpt :
  dptMajor dpt <> Some 1%N -> dptMajor dpt <> Some 16%N -> dptMajor dpt <> Some 19%N ->
  exists n, coerceToKnxValue now v dpt = JNumber n.
Proof.
  intros E1 E16 E19. unfold coerceToKnxValue. split_major.
  destruct v; eauto. destruct (is_finite (string_to_number s)); eauto.
Qed.

(** The value handed to the bus has the type of the role the state object
    was created with: a boolean for a switch, a string for text, a date for a
    date, a number for everything else.  A value that already went through
    the coercion is not changed by it. *)
Theorem coercion_matches_role (now : JsNum) (v : JsVal) (dpt : option jsstr) :
  (cb_role (inferCommonFromDpt dpt) = str "switch" ->
     exists b, coerceToKnxValue now v dpt = JBool b)
  /\ (cb_role (inferCommonFromDpt dpt) = str "text" ->
        exists s, coerceToKnxValue now v dpt = JString s)
  /\ (cb_role (inferCommonFromDpt dpt) = str "date" ->
        exists t, coerceToKnxValue now v dpt = JDate t)
  /\ (cb_role (inferCommonFromDpt dpt) = str "value" ->
        exists n, coerceToKnxValue now v dpt = JNumber n)
  /\ (forall now', coerceToKnxValue now' (coerceToKnxValue now v dpt) dpt
                   = coerceToKnxValue now v dpt).
Proof.
  unfold inferCommonFromDpt. rewrite by_major.
  destruct (decide (dptMajor dpt = Some 1%N)) as [E1|E1];
    [|destruct (decide (dptMajor dpt = Some 16%N)) as [E16|E16];
      [|destruct (decide (dptMajor dpt = Some 19%N)) as [E19|E19]]]; simpl.
  - repeat split; try discriminate.
    + intros _. apply coerce_boolean, E1.
    + intros now'. destruct (coerce_boolean now v dpt E1) as [b ->].
      unfold coerceToKnxValue. rewrite E1. reflexivity.
  - repeat split; try discriminate.
    + intros _. apply coerce_text, E16.
    + intros now'. destruct (coerce_text now v dpt E16) as [s ->].
      unfold coerceToKnxValue. rewrite E16. reflexivity.
  - repeat split; try discriminate.
    + intros _. apply coerce_date, E19.
    + intros now'. destruct (coerce_date now v dpt E19) as [t ->].
      unfold coerceToKnxValue. rewrite E19. reflexivity.
  - repeat split; try discriminate.
    + intros _. apply coerce_numeric; assumption.
    + intros now'. destruct (coerce_numeric now v dpt E1 E16 E19) as [n ->].
      unfold coerceToKnxValue. split_major; reflexivity.
Qed.

End Coercion.

End TypeCodeFacts.

(** ** The group-address tree *)

Module TreeFacts.

Import ProjectImport.

(** Induction over a range and the ranges nested in it. *)
Lemma GroupRange_nested_ind (P : GroupRange -> Prop) :
  (forall name rs gas, Forall P rs -> P (mkGroupRange name rs gas)) ->
  forall gr, P gr.
Proof.
  intros Hstep. fix IH 1. intros [name rs gas]. apply Hstep.
  induction rs as [|r rs IHrs]; constructor; [apply IH | exact IHrs].
Qed.

Lemma walk_range_unfold name rs gas path out :
  walkGroupRange (mkGroupRange name rs gas) path out
  = walkGroupRanges rs (next_path name path) out
    ++ ((fun ga => {| groupRangePath := next_path name path; groupAddress := ga |}) <$> gas).
Proof.
  cbn [walkGroupRange]. f_equal. unfold walkGroupRanges.
  revert out. induction rs as [|r rs IH]; intros out; [reflexivity|].
  cbn [foldl]. apply IH.
Qed.

Lemma count_range_unfold name rs gas :
  count_range (mkGroupRange name rs gas) = (count_ranges rs + length gas)%nat.
Proof.
  reflexivity.
Qed.

(** Lifting a property of one range to a list of ranges. *)
Lemma walk_ranges_accumulate rs :
  Forall (fun gr => forall path out,
            walkGroupRange gr path out = out ++ walkGroupRange gr path []) rs ->
  forall path out, walkGroupRanges rs path out = out ++ walkGroupRanges rs path [].
Proof.
  unfold walkGroupRanges. induction 1 as [|r rs Hr _ IH]; intros path out; cbn [foldl].
  - rewrite app_nil_r. reflexivity.
  - rewrite IH, (IH path (walkGroupRange r path [])), Hr, app_assoc. reflexivity.
Qed.

Lemma walk_range_accumulate gr : forall path out,
  walkGroupRange gr path out = out ++ walkGroupRange gr path [].
Proof.
  induction gr as [name rs gas IH] using GroupRange_nested_ind. intros path out.
  rewrite !walk_range_unfold, (walk_ranges_accumulate rs IH _ out), app_assoc. reflexivity.
Qed.

Lemma walk_accumulate rs path out :
  walkGroupRanges rs path out = out ++ walkGroupRanges rs path [].
Proof.
  apply walk_ranges_accumulate, Forall_forall. intros gr _. apply walk_range_accumulate.
Qed.

Lemma walk_cons r rs path :
  walkGroupRanges (r :: rs) path [] = walkGroupRange r path [] ++ walkGroupRanges rs path [].
Proof. unfold walkGroupRanges at 1. cbn [foldl]. apply walk_accumulate. Qed.

Lemma walk_app rs1 rs2 path :
  walkGroupRanges (rs1 ++ rs2) path []
  = walkGroupRanges rs1 path [] ++ walkGroupRanges rs2 path [].
Proof.
  unfold walkGroupRanges at 1. rewrite foldl_app. apply walk_accumulate.
Qed.

Lemma walk_range_count gr : forall path,
  length (walkGroupRange gr path []) = count_range gr.
Proof.
  induction gr as [name rs gas IH] using GroupRange_nested_ind. intros path.
  rewrite walk_range_unfold, count_range_unfold, length_app, length_fmap. f_equal.
  generalize (next_path name path). intros p.
  induction IH as [|r rs Hr _ IHrs]; [reflexivity|].
  rewrite walk_cons, length_app, Hr, IHrs. reflexivity.
Qed.

Lemma walk_count rs path : length (walkGroupRanges rs path []) = count_ranges rs.
Proof.
  induction rs as [|r rs IH]; [reflexivity|].
  rewrite walk_cons, length_app, walk_range_count, IH. reflexivity.
Qed.

(** The walk only appends: what was collected before stays in front, every
    group address of the tree adds one pair, and walking several trees one
    after the other gives the concatenation of the single walks. *)
Theorem walk_appends (rs rs' : list GroupRange) (path : list jsstr) (out : list Collected) :
  walkGroupRanges rs path out = out ++ walkGroupRanges rs path []
  /\ length (walkGroupRanges rs path out) = (length out + count_ranges rs)%nat
  /\ walkGroupRanges (rs ++ rs') path out
     = out ++ walkGroupRanges rs path [] ++ walkGroupRanges rs' path [].
Proof.
  split; [apply walk_accumulate|]. split.
  - rewrite walk_accumulate, length_app, walk_count. reflexivity.
  - rewrite walk_accumulate, walk_app. reflexivity.
Qed.

Lemma next_path_app name p q : next_path name (p ++ q) = p ++ next_path name q.
Proof. destruct name as [[|c r]|]; simpl; [reflexivity | | reflexivity]. rewrite app_assoc. reflexivity. Qed.

Lemma walk_range_under gr : forall p q,
  walkGroupRange gr (p ++ q) [] = under p <$> walkGroupRange gr q [].
Proof.
  induction gr as [name rs gas IH] using GroupRange_nested_ind. intros p q.
  rewrite !walk_range_unfold, fmap_app, next_path_app. f_equal.
  - generalize (next_path name q). intros q'.
    induction IH as [|r rs Hr _ IHrs]; [reflexivity|].
    rewrite !walk_cons, fmap_app, Hr, IHrs. reflexivity.
  - rewrite <- list_fmap_compose. reflexivity.
Qed.

Lemma walk_under rs p q :
  walkGroupRanges rs (p ++ q) [] = under p <$> walkGroupRanges rs q [].
Proof.
  induction rs as [|r rs IH]; [reflexivity|].
  rewrite !walk_cons, fmap_app, walk_range_under, IH. reflexivity.
Qed.

(** The path given to the walk is only ever extended: walking below a path
    gives the pairs of the walk from the root, each with that path in
    front. *)
Theorem walk_extends_path (rs : list GroupRange) (path : list jsstr) :
  walkGroupRanges rs path [] = under path <$> walkGroupRanges rs [] []
  /\ Forall (fun c => path `prefix_of` groupRangePath c) (walkGroupRanges rs path []).
Proof.
  assert (E : walkGroupRanges rs path [] = under path <$> walkGroupRanges rs [] []).
  { rewrite <- (app_nil_r path) at 1. apply walk_under. }
  split; [exact E|]. rewrite E. apply Forall_fmap, Forall_forall.
  intros c _. simpl. apply prefix_app_r. reflexivity.
Qed.

(** Nested ranges come first, then the range's own addresses; the nameless
    range adds no segment. *)
Example walk_sample_tree :
  (fun c => (groupRangePath c, ID (groupAddress c))) <$> walkGroupRanges Sample.tree [] []
  = [ ([str "Building"], Some (str "GA-1"));
      ([str "Building"; str "Floor 1"], Some (str "GA-2"));
      ([str "Building"; str "Floor 1"], Some (str "GA-3"));
      ([str "Building"], Some (str "GA-4")) ].
Proof. reflexivity. Qed.

End TreeFacts.

(** ** Entry identifiers *)

Module EntryFacts.

Import KnxUtils Codec ProjectImport.

Lemma join_cons p q rest : join (p :: q :: rest) = p ++ Adapter.dot :: join (q :: rest).
Proof. reflexivity. Qed.

(** Joining with dots and splitting at dots gives the parts back, when no
    part contains a dot. *)
Lemma split_join parts :
  parts <> [] -> Forall (Forall (fun c => c <> Adapter.dot)) parts ->
  split_on Adapter.dot (join parts) = parts.
Proof.
  intros Hne Hd. induction Hd as [|p rest Hp Hrest IH]; [contradiction|].
  destruct rest as [|q rest].
  - simpl. apply CodecFacts.split_on_single, Hp.
  - rewrite join_cons, CodecFacts.split_on_app by exact Hp.
    rewrite IH by discriminate. reflexivity.
Qed.

Lemma filter_nonempty parts :
  Forall (fun p => p <> []) parts -> List.filter nonempty parts = parts.
Proof.
  induction 1 as [|p rest Hp _ IH]; [reflexivity|].
  simpl. destruct p; [contradiction|]. simpl. rewrite IH. reflexivity.
Qed.

(** The parts an identifier is joined from. *)
Lemma entry_id_parts path gaStr :
  entry_id path gaStr
  = join (str "ga" :: ((fun p => sanitizeIdSegment (JString p)) <$> path)
            ++ [sanitizeIdSegment (JString (replace_slashes gaStr))]).
Proof.
  unfold entry_id. rewrite filter_nonempty; [reflexivity|].
  constructor; [discriminate|]. apply Forall_app. split.
  - apply Forall_fmap, Forall_forall. intros p _. apply SanitizeFacts.segment_nonempty.
  - constructor; [apply SanitizeFacts.segment_nonempty | constructor].
Qed.

Lemma entry_parts_dot_free path gaStr :
  Forall (Forall (fun c => c <> Adapter.dot))
    (str "ga" :: ((fun p => sanitizeIdSegment (JString p)) <$> path)
       ++ [sanitizeIdSegment (JString (replace_slashes gaStr))]).
Proof.
  constructor; [repeat constructor; discriminate|]. apply Forall_app. split.
  - apply Forall_fmap, Forall_forall. intros p _. apply SanitizeFacts.segment_dot_free.
  - constructor; [apply SanitizeFacts.segment_dot_free | constructor].
Qed.

Lemma entry_id_split path gaStr :
  split_on Adapter.dot (entry_id path gaStr)
  = str "ga" :: ((fun p => sanitizeIdSegment (JString p)) <$> path)
      ++ [sanitizeIdSegment (JString (replace_slashes gaStr))].
Proof.
  rewrite entry_id_parts. apply split_join; [discriminate | apply entry_parts_dot_free].
Qed.

Lemma entry_id_under_ga path gaStr :
  Adapter.startsWith (entry_id path gaStr) (str "ga.") = true.
Proof.
  rewrite entry_id_parts.
  destruct ((fun p => sanitizeIdSegment (JString p)) <$> path) as [|q rest]; reflexivity.
Qed.

(** An entry identifier lies under [ga.], which is the prefix the adapter
    subscribes to and accepts commands for; split at its dots it gives ["ga"],
    then one sanitized segment per range name of the path, then the segment
    of the address: no segment is empty and none is lost. *)
Theorem entry_id_segments (path : list jsstr) (gaStr : jsstr) :
  Adapter.startsWith (entry_id path gaStr) (str "ga.") = true
  /\ split_on Adapter.dot (entry_id path gaStr)
     = str "ga" :: ((fun p => sanitizeIdSegment (JString p)) <$> path)
         ++ [sanitizeIdSegment (JString (replace_slashes gaStr))]
  /\ Forall (fun seg => seg <> []) (split_on Adapter.dot (entry_id path gaStr))
  /\ length (split_on Adapter.dot (entry_id path gaStr)) = (length path + 2)%nat.
Proof.
  pose proof (entry_id_split path gaStr) as Hs.
  split; [|split; [exact Hs|split]].
  - rewrite entry_id_parts.
    destruct ((fun p => sanitizeIdSegment (JString p)) <$> path) as [|q rest]; reflexivity.
  - rewrite Hs. constructor; [discriminate|]. apply Forall_app. split.
    + apply Forall_fmap, Forall_forall. intros p _. apply SanitizeFacts.segment_nonempty.
    + constructor; [apply SanitizeFacts.segment_nonempty | constructor].
  - rewrite Hs. simpl. rewrite length_app, length_fmap. simpl. lia.
Qed.

Example entry_id_of_lamp :
  entry_id [str "Ground floor"; str "Living/Dining"] (str "1/2/3")
  = str "ga.Ground_floor.Living_Dining.1_2_3".
Proof. reflexivity. Qed.

(** *** The segment of a rendered address *)

Lemma plain_sanitize x : plain_segment x -> sanitizeIdSegment (JString x) = x.
Proof.
  intros (Hne & Hsafe & Hnd & Hh & Hl). unfold sanitizeIdSegment.
  rewrite SanitizeFacts.chain_id by assumption. destruct x; [contradiction | reflexivity].
Qed.

Lemma digit_safe c : is_digit c = true -> is_safe c = true.
Proof. intros Hd. unfold is_safe. rewrite Hd, orb_true_r. reflexivity. Qed.

Lemma digit_not_underscore c : is_digit c = true -> is_underscore c = false.
Proof.
  intros Hd. destruct (is_underscore c) eqn:E; [|reflexivity].
  apply N.eqb_eq in E. subst c. discriminate Hd.
Qed.

Lemma no_double_digits d t :
  Forall (fun c => is_digit c = true) d -> no_double t = true -> no_double (d ++ t) = true.
Proof.
  intros Hd Ht. induction Hd as [|c r Hc _ IH]; [exact Ht|].
  simpl app. destruct (r ++ t) as [|c' r'] eqn:E; [reflexivity|].
  change (no_double (c :: c' :: r'))
    with (negb (is_underscore c && is_underscore c') && no_double (c' :: r')).
  rewrite (digit_not_underscore c Hc), IH. reflexivity.
Qed.

Lemma plain_digits d :
  d <> [] -> Forall (fun c => is_digit c = true) d -> plain_segment d.
Proof.
  intros Hne Hd. split; [exact Hne|]. split; [|split; [|split]].
  - eapply Forall_impl; [exact Hd | apply digit_safe].
  - rewrite <- (app_nil_r d). apply no_double_digits; [exact Hd | reflexivity].
  - intros c Hc. apply digit_not_underscore. rewrite Forall_forall in Hd.
    apply Hd. eapply head_Some_elem_of, Hc.
  - intros c Hc. apply digit_not_underscore. rewrite Forall_forall in Hd.
    apply Hd. eapply last_Some_elem_of, Hc.
Qed.

Lemma plain_group d t :
  d <> [] -> Forall (fun c => is_digit c = true) d -> plain_segment t ->
  plain_segment (d ++ underscore :: t).
Proof.
  intros Hne Hd (Tne & Tsafe & Tnd & Th & Tl).
  split; [destruct d; [contradiction | discriminate]|]. split; [|split; [|split]].
  - apply Forall_app. split; [eapply Forall_impl; [exact Hd | apply digit_safe]|].
    constructor; [reflexivity | exact Tsafe].
  - apply no_double_digits; [exact Hd|].
    destruct t as [|c t']; [contradiction|].
    change (no_double (underscore :: c :: t'))
      with (negb (is_underscore underscore && is_underscore c) && no_double (c :: t')).
    rewrite (Th c eq_refl), Tnd. reflexivity.
  - intros c Hc. destruct d as [|x d']; [contradiction|].
    simpl in Hc. injection Hc as <-. apply digit_not_underscore.
    apply Forall_cons in Hd as [Hx _]. exact Hx.
  - intros c Hc. rewrite last_app, last_cons in Hc.
    destruct (last t) as [l|] eqn:E.
    + injection Hc as <-. apply Tl. reflexivity.
    + apply last_None in E. contradiction.
Qed.

Lemma replace_slashes_digits d :
  Forall (fun c => is_digit c = true) d -> replace_slashes d = d.
Proof.
  unfold replace_slashes. induction 1 as [|c r Hc _ IH]; [reflexivity|].
  rewrite fmap_cons, IH.
  destruct (N.eqb_spec c slash) as [->|_]; [discriminate Hc | reflexivity].
Qed.

Lemma replace_slashes_group d t :
  Forall (fun c => is_digit c = true) d ->
  replace_slashes (d ++ slash :: t) = d ++ underscore :: replace_slashes t.
Proof.
  intros Hd. unfold replace_slashes. rewrite fmap_app, fmap_cons.
  fold (replace_slashes d). rewrite replace_slashes_digits by exact Hd. reflexivity.
Qed.

Lemma replace_slashes_inj s : forall t,
  Forall (fun c => c <> underscore) s -> Forall (fun c => c <> underscore) t ->
  replace_slashes s = replace_slashes t -> s = t.
Proof.
  unfold replace_slashes.
  induction s as [|c s IH]; intros [|c' t] Hs Ht E; try discriminate; [reflexivity|].
  rewrite !fmap_cons in E. injection E as Ec E.
  apply Forall_cons in Hs as [Hc Hs]. apply Forall_cons in Ht as [Hc' Ht].
  f_equal; [|apply IH; assumption].
  destruct (N.eqb_spec c slash) as [->|Hn], (N.eqb_spec c' slash) as [->|Hn'];
    congruence.
Qed.

Lemma digits_no_underscore d :
  Forall (fun c => is_digit c = true) d -> Forall (fun c => c <> underscore) d.
Proof.
  intros Hd. eapply Forall_impl; [exact Hd|]. intros c Hc ->. discriminate Hc.
Qed.

Section Rendered.
Context {rt : JsRuntime}.

(** What a rendered address looks like after the slashes are replaced, and
    that it has no underscore before. *)
Lemma rendered_segment style a :
  0 <= a <= 65535 ->
  plain_segment (replace_slashes (groupAddressNumberToString (Codec.address a) style))
  /\ Forall (fun c => c <> underscore) (groupAddressNumberToString (Codec.address a) style).
Proof.
  intros Ha.
  pose proof TypeCodeFacts.decimal_digits as Dd.
  pose proof TypeCodeFacts.decimal_nonempty as Dn.
  destruct (decide (style = str "TwoLevel")) as [->|Hs].
  - rewrite CodecFacts.render_two_level by exact Ha. split.
    + rewrite replace_slashes_group, replace_slashes_digits by apply Dd.
      apply plain_group; [apply Dn | apply Dd | apply plain_digits; [apply Dn | apply Dd]].
    + apply Forall_app. split; [apply digits_no_underscore, Dd|].
      constructor; [discriminate | apply digits_no_underscore, Dd].
  - rewrite CodecFacts.render_default by assumption. split.
    + rewrite !replace_slashes_group, replace_slashes_digits by apply Dd.
      apply plain_group; [apply Dn | apply Dd |].
      apply plain_group; [apply Dn | apply Dd | apply plain_digits; [apply Dn | apply Dd]].
    + apply Forall_app. split; [apply digits_no_underscore, Dd|].
      constructor; [discriminate|].
      apply Forall_app. split; [apply digits_no_underscore, Dd|].
      constructor; [discriminate | apply digits_no_underscore, Dd].
Qed.

(** The identifier of an entry determines its address: for the two
    slash-separated styles, two addresses of the range whose entries get the
    same identifier are equal, whatever the range paths are.  The last
    segment of the identifier is the rendered address with underscores for
    slashes. *)
Theorem entry_id_determines_address (style : jsstr) (path path' : list jsstr) (a b : Z) :
  style = str "ThreeLevel" \/ style = str "TwoLevel" ->
  0 <= a <= 65535 ->
  0 <= b <= 65535 ->
  last (split_on Adapter.dot
          (entry_id path (groupAddressNumberToString (Codec.address a) style)))
  = Some (replace_slashes (groupAddressNumberToString (Codec.address a) style))
  /\ (entry_id path (groupAddressNumberToString (Codec.address a) style)
      = entry_id path' (groupAddressNumberToString (Codec.address b) style) ->
      a = b).
Proof.
  intros Hs Ha Hb.
  destruct (rendered_segment style a Ha) as [Pa Ua].
  destruct (rendered_segment style b Hb) as [Pb Ub].
  assert (La : forall p x, plain_segment (replace_slashes x) ->
             last (split_on Adapter.dot (entry_id p x)) = Some (replace_slashes x)).
  { intros p x Px. rewrite entry_id_split, plain_sanitize by exact Px.
    rewrite app_comm_cons. apply last_snoc. }
  split; [apply La, Pa|].
  intros E.
  assert (R : groupAddressNumberToString (Codec.address a) style
              = groupAddressNumberToString (Codec.address b) style).
  { apply replace_slashes_inj; [assumption ..|].
    assert (S : Some (replace_slashes (groupAddressNumberToString (Codec.address a) style))
                = Some (replace_slashes (groupAddressNumberToString (Codec.address b) style))).
    { rewrite <- (La path _ Pa), <- (La path' _ Pb), E. reflexivity. }
    injection S as S. exact S. }
  pose proof (CodecFacts.decode_render style a Hs Ha) as Da.
  pose proof (CodecFacts.decode_render style b Hs Hb) as Db.
  rewrite R in Da. congruence.
Qed.

End Rendered.

Lemma entry_id_determines_address_witness :
  last (split_on Adapter.dot
          (entry_id [str "Floor"]
             (groupAddressNumberToString (rt := Sample.runtime) (Codec.address 2563)
                (str "ThreeLevel"))))
  = Some (replace_slashes
            (groupAddressNumberToString (rt := Sample.runtime) (Codec.address 2563)
               (str "ThreeLevel")))
  /\ (entry_id [str "Floor"]
        (groupAddressNumberToString (rt := Sample.runtime) (Codec.address 2563) (str "ThreeLevel"))
      = entry_id [str "Attic"; str "Light"]
          (groupAddressNumberToString (rt := Sample.runtime) (Codec.address 2564)
             (str "ThreeLevel")) ->
      2563 = 2564).
Proof.
  apply (entry_id_determines_address (rt := Sample.runtime) (str "ThreeLevel")
           [str "Floor"] [str "Attic"; str "Light"] 2563 2564).
  - left. reflexivity.
  - lia.
  - lia.
Defined.

End EntryFacts.

(** ** Channels and state objects *)

Module ObjectFacts.

Import Adapter ProjectImport.

Lemma join_nonempty x r : x <> [] -> join (x :: r) <> [].
Proof.
  intros Hx. destruct r; simpl; [exact Hx|].
  destruct x; [contradiction | discriminate].
Qed.

(** Extending a joined prefix by one part, the way the loop does. *)
Lemma join_snoc xs seg :
  Forall (fun p => p <> []) xs ->
  join (xs ++ [seg])
  = match join xs with
    | [] => seg
    | _ => join xs ++ dot :: seg
    end.
Proof.
  induction 1 as [|x r Hx Hr IH]; [reflexivity|].
  destruct r as [|y r'].
  - simpl. destruct x; [contradiction | reflexivity].
  - change (join ((x :: y :: r') ++ [seg])) with (x ++ dot :: join ((y :: r') ++ [seg])).
    rewrite IH. apply Forall_cons in Hr as [Hy _].
    pose proof (join_nonempty y r' Hy) as Hj.
    change (join (x :: y :: r')) with (x ++ dot :: join (y :: r')).
    destruct (join (y :: r')) as [|c j] eqn:E; [contradiction|].
    destruct x; [contradiction|]. simpl. rewrite <- app_assoc. reflexivity.
Qed.

Section Objects.
Context {rt : JsRuntime} {tp : Transport}.

Lemma setObjectNotExists_lookup k o (a : Adapter) k' :
  objects (setObjectNotExists k o a) !! k'
  = match objects a !! k' with
    | Some x => Some x
    | None => if decide (k = k') then Some o else None
    end.
Proof.
  unfold setObjectNotExists. destruct (objects a !! k) as [x|] eqn:E.
  - destruct (objects a !! k') as [x'|] eqn:E'; [reflexivity|].
    destruct (decide (k = k')) as [->|_]; [congruence | reflexivity].
  - simpl. destruct (decide (k = k')) as [->|Hne].
    + rewrite lookup_insert_eq, E. reflexivity.
    + rewrite lookup_insert_ne by exact Hne. destruct (objects a !! k'); reflexivity.
Qed.

Lemma channel_loop_step seg rest prefix (a : Adapter) :
  rest <> [] ->
  channel_loop (seg :: rest) prefix a
  = channel_loop rest
      (match prefix with [] => seg | _ => prefix ++ dot :: seg end)
      (setObjectNotExists (match prefix with [] => seg | _ => prefix ++ dot :: seg end)
         (channel seg) a).
Proof. intros Hne. destruct rest; [contradiction | reflexivity]. Qed.

Lemma channel_loop_keeps parts : forall prefix (a : Adapter) k o,
  objects a !! k = Some o -> objects (channel_loop parts prefix a) !! k = Some o.
Proof.
  induction parts as [|seg rest IH]; intros prefix a k o Hk; [exact Hk|].
  destruct rest as [|seg' rest']; [exact Hk|].
  rewrite channel_loop_step by discriminate. apply IH.
  rewrite setObjectNotExists_lookup, Hk. reflexivity.
Qed.

Lemma channel_loop_creates segs : forall pre last_ (a : Adapter),
  Forall (fun p => p <> []) (pre ++ segs) ->
  (forall i, (0 < i <= length segs)%nat ->
     is_Some (objects (channel_loop (segs ++ [last_]) (join pre) a)
                !! join (pre ++ take i segs)))
  /\ (forall k o,
        objects (channel_loop (segs ++ [last_]) (join pre) a) !! k = Some o ->
        objects a !! k = Some o
        \/ (objects a !! k = None /\ obj_type o = str "channel"
            /\ exists i, (0 < i <= length segs)%nat /\ k = join (pre ++ take i segs))).
Proof.
  induction segs as [|seg rest IH]; intros pre last_ a Hne.
  - split; [intros i Hi; simpl in Hi; lia|]. intros k o Hk. left. exact Hk.
  - change ((seg :: rest) ++ [last_]) with (seg :: (rest ++ [last_])).
    rewrite channel_loop_step by (destruct rest; discriminate).
    assert (Hpre : Forall (fun p => p <> []) pre)
      by (apply Forall_app in Hne as [Hp _]; exact Hp).
    rewrite <- (join_snoc pre seg Hpre).
    set (a1 := setObjectNotExists (join (pre ++ [seg])) (channel seg) a).
    assert (Hne' : Forall (fun p => p <> []) ((pre ++ [seg]) ++ rest))
      by (rewrite <- app_assoc; exact Hne).
    destruct (IH (pre ++ [seg]) last_ a1 Hne') as [IHc IHo].
    split.
    + intros i Hi. destruct i as [|i]; [lia|].
      change (take (S i) (seg :: rest)) with (seg :: take i rest).
      replace (pre ++ seg :: take i rest) with ((pre ++ [seg]) ++ take i rest)
        by (rewrite <- app_assoc; reflexivity).
      destruct i as [|i].
      * rewrite take_0, app_nil_r.
        assert (Hs : is_Some (objects a1 !! join (pre ++ [seg]))).
        { unfold a1. rewrite setObjectNotExists_lookup.
          destruct (objects a !! join (pre ++ [seg])); [eexists; reflexivity|].
          destruct (decide (join (pre ++ [seg]) = join (pre ++ [seg]))); [|contradiction].
          eexists. reflexivity. }
        destruct Hs as [o Ho]. exists o. apply channel_loop_keeps, Ho.
      * apply IHc. simpl in Hi. lia.
    + intros k o Hk. apply IHo in Hk as [Hk | (Hn & Ht & i & Hi & ->)].
      * unfold a1 in Hk. rewrite setObjectNotExists_lookup in Hk.
        destruct (objects a !! k) as [x|] eqn:E; [left; exact Hk|].
        destruct (decide (join (pre ++ [seg]) = k)) as [<-|_]; [|discriminate].
        injection Hk as <-. right. split; [reflexivity|]. split; [reflexivity|].
        exists 1%nat. split; [simpl; lia|].
        simpl. rewrite take_0. reflexivity.
      * unfold a1 in Hn. rewrite setObjectNotExists_lookup in Hn.
        destruct (objects a !! join ((pre ++ [seg]) ++ take i rest)) as [x|] eqn:E;
          [discriminate|].
        right. split; [reflexivity|]. split; [exact Ht|].
        exists (S i). split; [simpl; lia|].
        rewrite <- app_assoc. reflexivity.
Qed.

(** For an identifier made of non-empty, dot-free parts,
    [ensureChannelsForState] leaves every existing object as it is, makes
    sure an object exists at every proper dotted prefix, creates nothing but
    channels at those prefixes, and never creates the identifier itself. *)
Theorem channels_for_state (segs : list jsstr) (leaf : jsstr) (a : Adapter) :
  Forall (fun p => p <> [] /\ Forall (fun c => c <> dot) p) (segs ++ [leaf]) ->
  (forall k o,
      objects a !! k = Some o ->
      objects (ensureChannelsForState (join (segs ++ [leaf])) a) !! k = Some o)
  /\ (forall i, (0 < i <= length segs)%nat ->
        is_Some (objects (ensureChannelsForState (join (segs ++ [leaf])) a)
                   !! join (take i segs)))
  /\ (forall k o,
        objects (ensureChannelsForState (join (segs ++ [leaf])) a) !! k = Some o ->
        objects a !! k = None ->
        obj_type o = str "channel"
        /\ exists i, (0 < i <= length segs)%nat /\ k = join (take i segs))
  /\ objects (ensureChannelsForState (join (segs ++ [leaf])) a) !! join (segs ++ [leaf])
     = objects a !! join (segs ++ [leaf]).
Proof.
  intros Hparts.
  assert (Hne : Forall (fun p : jsstr => p <> []) (segs ++ [leaf]))
    by (eapply Forall_impl; [exact Hparts | intros p [Hp _]; exact Hp]).
  assert (Hdot : Forall (Forall (fun c => c <> dot)) (segs ++ [leaf]))
    by (eapply Forall_impl; [exact Hparts | intros p [_ Hp]; exact Hp]).
  assert (Hsplit : Codec.split_on dot (join (segs ++ [leaf])) = segs ++ [leaf])
    by (apply EntryFacts.split_join; [destruct segs; discriminate | exact Hdot]).
  assert (Hrun : ensureChannelsForState (join (segs ++ [leaf])) a
                 = channel_loop (segs ++ [leaf]) (join []) a).
  { unfold ensureChannelsForState. rewrite Hsplit.
    destruct (Nat.leb_spec (length (segs ++ [leaf])) 1) as [Hl|Hl]; [|reflexivity].
    rewrite length_app in Hl. simpl in Hl.
    destruct segs; [reflexivity | simpl in Hl; lia]. }
  rewrite Hrun.
  assert (Hsegs : Forall (fun p : jsstr => p <> []) ([] ++ segs))
    by (apply Forall_app in Hne as [Hs _]; exact Hs).
  destruct (channel_loop_creates segs [] leaf a Hsegs) as [Hc Ho].
  assert (Hnew : forall k o,
            objects (channel_loop (segs ++ [leaf]) (join []) a) !! k = Some o ->
            objects a !! k = None ->
            obj_type o = str "channel"
            /\ exists i, (0 < i <= length segs)%nat /\ k = join (take i segs)).
  { intros k o Hk Hn. destruct (Ho k o Hk) as [Hold | (_ & Ht & Hi)]; [congruence|].
    split; [exact Ht | exact Hi]. }
  split; [intros k o; apply channel_loop_keeps|].
  split; [exact Hc|]. split; [exact Hnew|].
  destruct (objects a !! join (segs ++ [leaf])) as [o|] eqn:E.
  - apply channel_loop_keeps, E.
  - destruct (objects (channel_loop (segs ++ [leaf]) (join []) a) !! join (segs ++ [leaf]))
      as [o|] eqn:E'; [|reflexivity].
    exfalso. destruct (Hnew _ o E' E) as (_ & i & Hi & Hj).
    apply (f_equal (Codec.split_on dot)) in Hj.
    rewrite Hsplit, EntryFacts.split_join in Hj.
    + apply (f_equal length) in Hj. rewrite length_app, length_take in Hj. simpl in Hj. lia.
    + destruct segs; [simpl in Hi; lia|]. destruct i; [lia | discriminate].
    + apply Forall_take. apply Forall_app in Hdot as [Hd _]. exact Hd.
Qed.

(** *** [upsertGaState] *)

Lemma patch_val_twice old new : patch_val (patch_val old new) new = patch_val old new.
Proof. destruct new; reflexivity. Qed.

Lemma patch_native_twice X n : patch_native (Some (patch_native X n)) n = patch_native X n.
Proof.
  destruct X as [old|]; simpl.
  - rewrite !patch_val_twice. destruct (n_flags n); reflexivity.
  - destruct n as [g d [f|] ds]; simpl; f_equal; match goal with |- patch_val ?v ?v = _ => destruct v end; reflexivity.
Qed.

(** The object [upsertGaState] leaves under the entry's identifier: the type
    of the object that was there, or ['state']; the entry's [common]; the
    entry's [native] laid over the one that was there. *)
Lemma upsert_form (entry : ImportEntry) :
  exists c n,
    n_ga n = JString (entry_ga entry)
    /\ n_dpt n = opt_val (entry_dpt entry)
    /\ n_flags n = Some {| raw_readFlag := JBool (flag_of (entry_flags entry) readFlag);
                           raw_writeFlag := JBool (flag_of (entry_flags entry) writeFlag);
                           raw_transmitFlag := JBool (flag_of (entry_flags entry) transmitFlag);
                           raw_updateFlag := JBool (flag_of (entry_flags entry) updateFlag) |}
    /\ forall a : Adapter,
         upsertGaState entry a
         = set_objects
             (<[id entry :=
                  {| obj_type := match objects a !! id entry with
                                 | Some old => obj_type old
                                 | None => str "state"
                                 end;
                     common := c;
                     native := Some (patch_native
                                       match objects a !! id entry with
                                       | Some old => native old
                                       | None => Some n
                                       end n) |}]> (objects a)) a.
Proof.
  eexists. eexists. split; [|split; [|split]]; cycle 3.
  - intros a. unfold upsertGaState, setObjectNotExists.
    destruct (objects a !! id entry) as [old|] eqn:E.
    + unfold extendObject. rewrite E. reflexivity.
    + unfold extendObject. simpl. rewrite lookup_insert_eq. simpl.
      rewrite insert_insert_eq. reflexivity.
  - reflexivity.
  - reflexivity.
  - reflexivity.
Qed.

Lemma upsert_twice (entry : ImportEntry) (a : Adapter) :
  upsertGaState entry (upsertGaState entry a) = upsertGaState entry a.
Proof.
  destruct (upsert_form entry) as (c & n & _ & _ & _ & Hform).
  rewrite (Hform a). rewrite Hform.
  cbn [objects set_objects]. rewrite lookup_insert_eq. cbn [obj_type native].
  rewrite patch_native_twice, insert_insert_eq. reflexivity.
Qed.

(** [upsertGaState] touches one object only and nothing but the object
    store; an object that exists keeps its type; doing it twice is the same
    as doing it once. *)
Theorem upsert_is_local (entry : ImportEntry) (a : Adapter) :
  (forall k, k <> id entry -> objects (upsertGaState entry a) !! k = objects a !! k)
  /\ (forall old, objects a !! id entry = Some old ->
        exists o, objects (upsertGaState entry a) !! id entry = Some o
                  /\ obj_type o = obj_type old)
  /\ (objects a !! id entry = None ->
        exists o, objects (upsertGaState entry a) !! id entry = Some o
                  /\ obj_type o = str "state")
  /\ states (upsertGaState entry a) = states a
  /\ txQueue (upsertGaState entry a) = txQueue a
  /\ metaByStateId (upsertGaState entry a) = metaByStateId a
  /\ upsertGaState entry (upsertGaState entry a) = upsertGaState entry a.
Proof.
  destruct (upsert_form entry) as (c & n & _ & _ & _ & Hform).
  split; [|split; [|split; [|split; [|split; [|split; [|apply upsert_twice]]]]]];
    rewrite !Hform; cbn [objects states txQueue metaByStateId set_objects];
    try reflexivity.
  - intros k Hk. apply lookup_insert_ne. congruence.
  - intros old ->. rewrite lookup_insert_eq. eexists. split; reflexivity.
  - intros ->. rewrite lookup_insert_eq. eexists. split; reflexivity.
Qed.

Lemma startsWith_own p r : startsWith (p ++ r) p = true.
Proof. induction p as [|x p IH]; simpl; [reflexivity|]. rewrite N.eqb_refl. exact IH. Qed.

Lemma flags_eta f :
  {| readFlag := readFlag f; writeFlag := writeFlag f;
     transmitFlag := transmitFlag f; updateFlag := updateFlag f |} = f.
Proof. destruct f; reflexivity. Qed.

(** What is persisted is what the runtime sees.  After [upsertGaState] for an
    entry with an address and flags, under an identifier that was free or
    held a state object, a rebuild that scans the stored object yields a
    record under the entry's identifier with the entry's address and flags;
    when the identifier was free, also with the entry's type code. *)
Theorem upsert_then_rebuild (entry : ImportEntry) (f : AccessFlags) (a : Adapter) :
  entry_ga entry <> [] ->
  entry_flags entry = Some f ->
  (objects a !! id entry = None
   \/ exists old, objects a !! id entry = Some old /\ obj_type old = str "state") ->
  exists meta,
    row_record (namespace a)
      {| row_id := namespace a ++ dot :: id entry;
         doc := objects (upsertGaState entry a) !! id entry |}
    = Some (id entry, meta)
    /\ metaByStateId
         (rebuildRuntimeMapping
            (Some [{| row_id := namespace a ++ dot :: id entry;
                      doc := objects (upsertGaState entry a) !! id entry |}])
            (upsertGaState entry a)) !! id entry
       = Some meta
    /\ ga meta = entry_ga entry
    /\ flags meta = f
    /\ (objects a !! id entry = None ->
          dpt meta = match entry_dpt entry with
                     | Some ((_ :: _) as d) => Some d
                     | _ => None
                     end).
Proof.
  intros Hga Hf Hfree.
  destruct (upsert_form entry) as (c & n & Ng & Nd & Nf & Hform).
  assert (Hns : namespace (upsertGaState entry a) = namespace a)
    by (rewrite Hform; reflexivity).
  assert (Hty : match objects a !! id entry with
                | Some old => obj_type old
                | None => str "state"
                end = str "state").
  { destruct Hfree as [-> | (old & -> & Ht)]; [reflexivity | exact Ht]. }
  set (X := match objects a !! id entry with
            | Some old => native old
            | None => Some n
            end).
  assert (Hrow : exists meta,
            row_record (namespace a)
              {| row_id := namespace a ++ dot :: id entry;
                 doc := objects (upsertGaState entry a) !! id entry |}
            = Some (id entry, meta)
            /\ ga meta = entry_ga entry /\ flags meta = f
            /\ (objects a !! id entry = None ->
                  dpt meta = match entry_dpt entry with
                             | Some ((_ :: _) as d) => Some d
                             | _ => None
                             end)).
  { rewrite Hform. simpl. rewrite lookup_insert_eq.
    unfold row_record. simpl doc. cbv beta iota.
    simpl obj_type. rewrite Hty.
    rewrite bool_decide_eq_true_2 by reflexivity. simpl negb. cbv iota.
    unfold recorded_ga, raw_flags_of. simpl native. fold X. simpl default.
    assert (Eg : n_ga (patch_native X n) = JString (entry_ga entry)).
    { destruct X as [old|]; simpl; rewrite Ng; reflexivity. }
    assert (Ef : n_flags (patch_native X n) = n_flags n).
    { destruct X as [old|]; simpl; rewrite Nf; reflexivity. }
    rewrite Eg, Ef, Nf. simpl truthy.
    destruct (entry_ga entry) as [|g0 g] eqn:Eentry; [contradiction|].
    simpl negb. cbv iota.
    replace (namespace a ++ dot :: id entry) with ((namespace a ++ [dot]) ++ id entry)
      by (rewrite <- app_assoc; reflexivity).
    cbn [row_id]. rewrite startsWith_own.
    replace (length (namespace a) + 1)%nat with (length (namespace a ++ [dot]))
      by (rewrite length_app; reflexivity).
    rewrite drop_app_length.
    eexists. split; [reflexivity|]. simpl.
    split; [reflexivity|]. split.
    - rewrite Hf. simpl. apply flags_eta.
    - intros Hnone. unfold X. rewrite Hnone. simpl.
      destruct n as [ng nd nf nds]. simpl in *. subst nd.
      destruct (entry_dpt entry) as [[|d0 d]|]; reflexivity. }
  destruct Hrow as (meta & Hr & Hg & Hfl & Hd).
  exists meta. split; [exact Hr|]. split; [|split; [exact Hg | split; [exact Hfl | exact Hd]]].
  unfold rebuildRuntimeMapping. simpl. unfold scan_row.
  rewrite Hns, Hr. apply lookup_insert_eq.
Qed.

End Objects.

Lemma channels_for_state_witness :
  (forall k o,
      objects Sample.instance !! k = Some o ->
      objects (ensureChannelsForState
                 (join ([str "ga"; str "floor"] ++ [str "1_2_3"])) Sample.instance)
        !! k = Some o)
  /\ (forall i, (0 < i <= length [str "ga"; str "floor"])%nat ->
        is_Some (objects (ensureChannelsForState
                            (join ([str "ga"; str "floor"] ++ [str "1_2_3"]))
                            Sample.instance)
                   !! join (take i [str "ga"; str "floor"])))
  /\ (forall k o,
        objects (ensureChannelsForState
                   (join ([str "ga"; str "floor"] ++ [str "1_2_3"])) Sample.instance)
          !! k = Some o ->
        objects Sample.instance !! k = None ->
        obj_type o = str "channel"
        /\ exists i, (0 < i <= length [str "ga"; str "floor"])%nat
                     /\ k = join (take i [str "ga"; str "floor"]))
  /\ objects (ensureChannelsForState
                (join ([str "ga"; str "floor"] ++ [str "1_2_3"])) Sample.instance)
       !! join ([str "ga"; str "floor"] ++ [str "1_2_3"])
     = objects Sample.instance !! join ([str "ga"; str "floor"] ++ [str "1_2_3"]).
Proof.
  apply (channels_for_state (tp := Sample.transport)
           [str "ga"; str "floor"] (str "1_2_3") Sample.instance).
  repeat constructor; discriminate.
Defined.

(** The channels of ["ga.floor.1_2_3"] are ["ga"] and ["ga.floor"]. *)
Example channels_of_lamp :
  dom (objects (ensureChannelsForState (str "ga.floor.1_2_3") Sample.instance))
  = {[ str "ga"; str "ga.floor" ]}.
Proof. vm_compute. reflexivity. Qed.

Lemma upsert_then_rebuild_witness :
  exists meta,
    row_record (rt := Sample.runtime) (namespace Sample.instance)
      {| row_id := namespace Sample.instance ++ dot :: id Sample.sensor_entry;
         doc := objects (upsertGaState Sample.sensor_entry Sample.instance)
                  !! id Sample.sensor_entry |}
    = Some (id Sample.sensor_entry, meta)
    /\ metaByStateId
         (rebuildRuntimeMapping (rt := Sample.runtime)
            (Some [{| row_id := namespace Sample.instance ++ dot :: id Sample.sensor_entry;
                      doc := objects (upsertGaState Sample.sensor_entry Sample.instance)
                               !! id Sample.sensor_entry |}])
            (upsertGaState Sample.sensor_entry Sample.instance)) !! id Sample.sensor_entry
       = Some meta
    /\ ga meta = entry_ga Sample.sensor_entry
    /\ flags meta = {| readFlag := true; writeFlag := false;
                       transmitFlag := true; updateFlag := false |}
    /\ (objects Sample.instance !! id Sample.sensor_entry = None ->
          dpt meta = match entry_dpt Sample.sensor_entry with
                     | Some ((_ :: _) as d) => Some d
                     | _ => None
                     end).
Proof.
  apply (upsert_then_rebuild (rt := Sample.runtime) (tp := Sample.transport)
           Sample.sensor_entry
           {| readFlag := true; writeFlag := false; transmitFlag := true; updateFlag := false |}
           Sample.instance).
  - discriminate.
  - reflexivity.
  - left. reflexivity.
Defined.

End ObjectFacts.

(** ** The engine over time *)

Module EngineFacts.

Import Adapter Lifecycle.

Section Engine.
Context {rt : JsRuntime} {tp : Transport}.

(** *** Rebuild with distinct identifiers *)

Lemma scan_rows_skip ns (rows : list ViewRow) : forall (m : gmap jsstr Meta) k,
  (forall row meta, row ∈ rows -> row_record ns row <> Some (k, meta)) ->
  foldl (scan_row ns) m rows !! k = m !! k.
Proof.
  induction rows as [|row rows IH]; intros m k Hno; [reflexivity|].
  simpl. rewrite IH by (intros r meta Hr; apply Hno; right; exact Hr).
  unfold scan_row. destruct (row_record ns row) as [[k' meta']|] eqn:E; [|reflexivity].
  apply lookup_insert_ne. intros ->. apply (Hno row meta'); [left | exact E].
Qed.

Lemma record_key_listed ns (rows : list ViewRow) row k meta :
  row ∈ rows -> row_record ns row = Some (k, meta) ->
  k ∈ omap (fun row => fst <$> row_record ns row) rows.
Proof.
  intros Hin Hr. apply list_elem_of_omap. exists row. split; [exact Hin|].
  rewrite Hr. reflexivity.
Qed.

Lemma scan_rows_exact ns (rows : list ViewRow) : forall (m : gmap jsstr Meta) row k meta,
  NoDup (omap (fun row => fst <$> row_record ns row) rows) ->
  row ∈ rows -> row_record ns row = Some (k, meta) ->
  foldl (scan_row ns) m rows !! k = Some meta.
Proof.
  induction rows as [|row0 rows IH]; intros m row k meta Hnd Hin Hr; [inversion Hin|].
  simpl in Hnd. apply elem_of_cons in Hin as [-> | Hin].
  - rewrite Hr in Hnd. simpl in Hnd. apply NoDup_cons in Hnd as [Hk _].
    simpl. rewrite scan_rows_skip.
    + unfold scan_row. rewrite Hr. apply lookup_insert_eq.
    + intros r meta' Hin' Hr'. apply Hk. eapply record_key_listed; eassumption.
  - simpl. eapply IH; [|exact Hin|exact Hr].
    destruct (row_record ns row0) as [[k0 m0]|]; simpl in Hnd; [|exact Hnd].
    apply NoDup_cons in Hnd as [_ Hnd]. exact Hnd.
Qed.

(** When the scanned rows yield pairwise distinct relative identifiers, the
    rebuilt mapping is exactly the set of their records, whatever the mapping
    held before. *)
Theorem rebuild_is_exact (rows : list ViewRow) (a : Adapter) (k : jsstr) (meta : Meta) :
  NoDup (omap (fun row => fst <$> row_record (namespace a) row) rows) ->
  metaByStateId (rebuildRuntimeMapping (Some rows) a) !! k = Some meta
  <-> exists row, row ∈ rows /\ row_record (namespace a) row = Some (k, meta).
Proof.
  intros Hnd. unfold rebuildRuntimeMapping. simpl. split.
  - intros Hk. apply AdapterFacts.scan_rows_origin in Hk as [Hk | Hk]; [|exact Hk].
    rewrite lookup_empty in Hk. discriminate.
  - intros (row & Hin & Hr). eapply scan_rows_exact; eassumption.
Qed.

(** *** What a store event can change *)

Lemma startsWith_split s p : startsWith s p = true -> s = p ++ drop (length p) s.
Proof.
  revert s. induction p as [|x p IH]; intros s Hs; [reflexivity|].
  destruct s as [|y s]; [discriminate|]. simpl in Hs.
  apply andb_true_iff in Hs as [Hxy Hs]. apply N.eqb_eq in Hxy. subst y.
  simpl. f_equal. apply IH, Hs.
Qed.

Lemma acked_event_ignored now idFull sv (a : Adapter) :
  ack sv = true -> onStateChange now idFull (Some sv) a = a.
Proof. intros Hack. unfold onStateChange. rewrite Hack. reflexivity. Qed.

(** Whatever the event, [onStateChange] leaves the objects, the mapping, the
    bindings, the transport and the connection flag alone; it appends at most
    one job to the queue; and the only store write it can make is the
    acknowledged write of the event's own state, made only when [ackOnWrite]
    is set.  That write, coming back as an event, is ignored. *)
Theorem state_change_effects (now : JsNum) (idFull : jsstr) (state : option StateValue)
    (a : Adapter) :
  objects (onStateChange now idFull state a) = objects a
  /\ metaByStateId (onStateChange now idFull state a) = metaByStateId a
  /\ datapointsByStateId (onStateChange now idFull state a) = datapointsByStateId a
  /\ bus (onStateChange now idFull state a) = bus a
  /\ knxConnected (onStateChange now idFull state a) = knxConnected a
  /\ (txQueue (onStateChange now idFull state a) = txQueue a
      \/ exists job, txQueue (onStateChange now idFull state a) = txQueue a ++ [job])
  /\ (forall k sv,
        states (onStateChange now idFull state a) !! k = Some sv ->
        states a !! k = Some sv
        \/ (ack sv = true /\ ackOnWrite (config a) = true
            /\ idFull = namespace a ++ dot :: k
            /\ forall now' idFull' (a' : Adapter),
                 onStateChange now' idFull' (Some sv) a' = a')).
Proof.
  unfold onStateChange.
  destruct state as [sv0|]; [|repeat split; auto].
  destruct (ack sv0); [repeat split; auto|].
  destruct (startsWith idFull (namespace a ++ [dot])) eqn:Hp; cbn [negb];
    [|repeat split; auto].
  apply startsWith_split in Hp.
  set (idRel := drop (length (namespace a ++ [dot])) idFull) in *.
  destruct (startsWith idRel (str "ga.")); cbn [negb]; [|repeat split; auto].
  assert (Hid : idFull = namespace a ++ dot :: idRel)
    by (rewrite Hp at 1; rewrite <- app_assoc; reflexivity).
  assert (Hstore : forall (b : Adapter) k sv,
            states b = states a -> config b = config a ->
            states (if ackOnWrite (config b) then setState idRel (val sv0) true b else b) !! k
            = Some sv ->
            states a !! k = Some sv
            \/ (ack sv = true /\ ackOnWrite (config a) = true
                /\ idFull = namespace a ++ dot :: k
                /\ forall now' idFull' (a' : Adapter),
                     onStateChange now' idFull' (Some sv) a' = a')).
  { intros b k sv Hs Hc. rewrite Hc. destruct (ackOnWrite (config a)) eqn:Eack.
    - simpl. rewrite Hs. destruct (decide (idRel = k)) as [<-|Hne].
      + rewrite lookup_insert_eq. intros [= <-]. right.
        split; [reflexivity|]. split; [reflexivity|]. split; [exact Hid|].
        intros. apply acked_event_ignored. reflexivity.
      + rewrite lookup_insert_ne by exact Hne. auto.
    - rewrite Hs. auto. }
  destruct (metaByStateId a !! idRel) as [meta|]; [|repeat split; auto].
  destruct (datapointsByStateId a !! idRel) as [dp|]; [|repeat split; auto].
  destruct (writeFlag (flags meta)); [|destruct (readFlag (flags meta))].
  - repeat split; try (destruct (ackOnWrite (config _)); reflexivity).
    + right. eexists. destruct (ackOnWrite (config _)); reflexivity.
    + intros k sv. apply Hstore; reflexivity.
  - repeat split; try (destruct (ackOnWrite (config _)); reflexivity).
    + right. eexists. destruct (ackOnWrite (config _)); reflexivity.
    + intros k sv. apply Hstore; reflexivity.
  - repeat split; try (destruct (ackOnWrite (config _)); reflexivity).
    + left. destruct (ackOnWrite (config _)); reflexivity.
    + intros k sv. apply Hstore; reflexivity.
Qed.

(** *** Draining the queue *)

Lemma tick_disconnected (a : Adapter) : knxConnected a = false -> tick a = (Returned, a).
Proof. intros Hc. unfold tick. rewrite Hc. reflexivity. Qed.

Lemma tick_idle (a : Adapter) : txQueue a = [] -> tick a = (Returned, a).
Proof. intros Hq. unfold tick. rewrite Hq. destruct (knxConnected a); reflexivity. Qed.

Lemma tick_frame (a : Adapter) :
  states (tick a).2 = states a /\ objects (tick a).2 = objects a
  /\ metaByStateId (tick a).2 = metaByStateId a
  /\ datapointsByStateId (tick a).2 = datapointsByStateId a.
Proof.
  unfold tick. destruct (knxConnected a); simpl; [|auto].
  destruct (txQueue a) as [|job rest]; [auto|].
  unfold try_catch, call. simpl.
  destruct (perform (fn job) (bus a)) as [b [e|]]; simpl; auto.
Qed.

(** While the connection is up, [n] ticks take the first [n] jobs off the
    queue and carry them out on the transport in the order they were queued,
    whether they throw or not; the jobs behind them stay in order, and the
    stores and the mapping are not touched. *)
Theorem queue_drains_in_order (n : nat) (a : Adapter) :
  knxConnected a = true ->
  txQueue (ticks n a) = drop n (txQueue a)
  /\ bus (ticks n a) = foldl (fun b job => (perform (fn job) b).1) (bus a) (take n (txQueue a))
  /\ knxConnected (ticks n a) = true
  /\ states (ticks n a) = states a
  /\ objects (ticks n a) = objects a
  /\ metaByStateId (ticks n a) = metaByStateId a.
Proof.
  revert a. induction n as [|n IH]; intros a Hc.
  - cbn [ticks]. rewrite drop_0, take_0. repeat split; auto.
  - cbn [ticks]. destruct (txQueue a) as [|job rest] eqn:Hq.
    + rewrite tick_idle by exact Hq. simpl.
      destruct (IH a Hc) as (Q & B & C & S1 & O1 & M1).
      rewrite Hq in Q, B. rewrite drop_nil in Q. rewrite take_nil in B.
      rewrite ?drop_nil, ?take_nil. repeat split; auto.
    + destruct (AdapterFacts.tick_executes_head a job rest Hc Hq) as (Q1 & B1 & C1).
      destruct (tick_frame a) as (S1 & O1 & M1 & _).
      destruct (IH (tick a).2 C1) as (Q & B & C & S2 & O2 & M2).
      rewrite Q1, B1 in *. cbn [drop take foldl].
      rewrite Q, B, S2, O2, M2. repeat split; auto.
Qed.

(** After a disconnect the timer does nothing: any number of ticks leaves the
    adapter as the disconnect left it, jobs queued before stay queued, and
    jobs submitted meanwhile are appended behind them.  The connection state
    in the store is set to false, acknowledged. *)
Theorem disconnected_queue_waits (n : nat) (f : TxAction) (d : jsstr) (a : Adapter) :
  ticks n (onKnxDisconnected a) = onKnxDisconnected a
  /\ txQueue (onKnxDisconnected a) = txQueue a
  /\ ticks n (enqueueKnx f d (onKnxDisconnected a)) = enqueueKnx f d (onKnxDisconnected a)
  /\ txQueue (enqueueKnx f d (onKnxDisconnected a)) = txQueue (enqueueKnx f d a)
  /\ states (onKnxDisconnected a) !! str "info.connection"
     = Some {| val := JBool false; ack := true |}.
Proof.
  assert (Hidle : forall b : Adapter, knxConnected b = false -> ticks n b = b).
  { induction n as [|m IH]; intros b Hb; [reflexivity|].
    cbn [ticks]. rewrite tick_disconnected by exact Hb. apply IH, Hb. }
  split; [apply Hidle; reflexivity|]. split; [reflexivity|].
  split; [apply Hidle; reflexivity|]. split; [reflexivity|].
  unfold onKnxDisconnected. simpl. apply lookup_insert_eq.
Qed.

(** *** Values arriving from the bus *)


End Engine.

Lemma rebuild_is_exact_witness :
  metaByStateId
    (rebuildRuntimeMapping (rt := Sample.runtime)
       (Some [Sample.legacy_row; Sample.foreign_row]) Sample.instance)
    !! str "ga.floor.1_2_3"
  = Some {| ga := str "1/2/3"; dpt := Some (str "1.001");
            flags := {| readFlag := true; writeFlag := false;
                        transmitFlag := true; updateFlag := false |} |}
  <-> exists row, row ∈ [Sample.legacy_row; Sample.foreign_row]
                  /\ row_record (rt := Sample.runtime) (namespace Sample.instance) row
                     = Some (str "ga.floor.1_2_3",
                             {| ga := str "1/2/3"; dpt := Some (str "1.001");
                                flags := {| readFlag := true; writeFlag := false;
                                            transmitFlag := true; updateFlag := false |} |}).
Proof.
  apply (rebuild_is_exact (rt := Sample.runtime) (tp := Sample.transport)
           [Sample.legacy_row; Sample.foreign_row] Sample.instance
           (str "ga.floor.1_2_3")
           {| ga := str "1/2/3"; dpt := Some (str "1.001");
              flags := {| readFlag := true; writeFlag := false;
                          transmitFlag := true; updateFlag := false |} |}).
  vm_compute. apply NoDup_singleton.
Defined.

Lemma queue_drains_in_order_witness :
  txQueue (ticks 2 Sample.instance) = drop 2 (txQueue Sample.instance)
  /\ bus (ticks 2 Sample.instance)
     = foldl (fun b job => (perform (fn job) b).1) (bus Sample.instance)
         (take 2 (txQueue Sample.instance))
  /\ knxConnected (ticks 2 Sample.instance) = true
  /\ states (ticks 2 Sample.instance) = states Sample.instance
  /\ objects (ticks 2 Sample.instance) = objects Sample.instance
  /\ metaByStateId (ticks 2 Sample.instance) = metaByStateId Sample.instance.
Proof.
  apply (queue_drains_in_order (tp := Sample.transport) 2 Sample.instance).
  reflexivity.
Defined.

End EngineFacts.

(** ** From the parsed project to entries, and manual datapoints *)

Module ImportFacts.

Import Adapter ProjectImport.

Lemma collected_count roots : forall out,
  length (foldl (fun out root => walkGroupRanges root [] out) out roots)
  = (length out + foldr (fun root n => count_ranges root + n) 0 roots)%nat.
Proof.
  induction roots as [|root roots IH]; intros out; simpl; [lia|].
  rewrite IH, TreeFacts.walk_accumulate, length_app, TreeFacts.walk_count. lia.
Qed.

Section Entries.
Context {rt : JsRuntime}.

(** The import yields one entry per group address of the project's trees.
    Every entry lies under [ga.] and carries flags: those aggregated for its
    identifier when an active communication object refers to it, and
    transmit alone when none does or the address has no identifier. *)
Theorem imported_entries (gaStyleOverride : option jsstr) (result : ParsedProject) :
  length (import_entries gaStyleOverride result).2
  = foldr (fun root n => count_ranges root + n)%nat 0%nat (roots result)
  /\ Forall (fun e => startsWith (id e) (str "ga.") = true)
       (import_entries gaStyleOverride result).2
  /\ (forall style c,
        (ID (groupAddress c) = None ->
           entry_flags (make_entry style
                          (EtsImport.buildFlagsByGroupAddressId (topology result)) c)
           = Some default_flags)
        /\ (forall k, ID (groupAddress c) = Some k ->
              ~ (exists cor, cor ∈ EtsImport.references (topology result)
                             /\ EtsImport.refers cor k) ->
              entry_flags (make_entry style
                             (EtsImport.buildFlagsByGroupAddressId (topology result)) c)
              = Some default_flags)
        /\ (forall k f, ID (groupAddress c) = Some k ->
              EtsImport.buildFlagsByGroupAddressId (topology result) !! k = Some f ->
              entry_flags (make_entry style
                             (EtsImport.buildFlagsByGroupAddressId (topology result)) c)
              = Some f)).
Proof.
  unfold import_entries. cbn [snd]. split; [|split].
  - rewrite length_fmap, collected_count. reflexivity.
  - apply Forall_fmap, Forall_forall. intros c _. apply EntryFacts.entry_id_under_ga.
  - intros style c. unfold make_entry. cbn [entry_flags].
    split; [intros ->; reflexivity|]. split.
    + intros k -> Hno.
      destruct (EtsImport.buildFlagsByGroupAddressId (topology result) !! k) as [f|] eqn:E;
        [|reflexivity].
      exfalso. apply Hno. apply FlagFacts.build_present. rewrite E. eexists. reflexivity.
    + intros k f -> ->. reflexivity.
Qed.

End Entries.

Section Manual.
Context {rt : JsRuntime} {tp : Transport}.

Lemma upsert_present (entry : ImportEntry) (a : Adapter) k :
  is_Some (objects (upsertGaState entry a) !! k)
  <-> is_Some (objects a !! k) \/ k = id entry.
Proof.
  destruct (ObjectFacts.upsert_form entry) as (c & n & _ & _ & _ & Hform).
  rewrite Hform. cbn [objects set_objects].
  destruct (decide (id entry = k)) as [<-|Hne].
  - rewrite lookup_insert_eq. split; [auto | intros _; eexists; reflexivity].
  - rewrite lookup_insert_ne by exact Hne. split; [auto|].
    intros [Hk | ->]; [exact Hk | contradiction].
Qed.

Lemma created_present k0 o (a : Adapter) k :
  is_Some (objects (setObjectNotExists k0 o a) !! k)
  <-> is_Some (objects a !! k) \/ k = k0.
Proof.
  rewrite ObjectFacts.setObjectNotExists_lookup.
  destruct (objects a !! k) as [x|] eqn:E.
  - split; [intros _; left | intros _]; eexists; reflexivity.
  - destruct (decide (k0 = k)) as [->|Hne].
    + split; [auto | intros _; eexists; reflexivity].
    + split; [intros [x Hx]; discriminate|].
      intros [[x Hx] | ->]; [discriminate | contradiction].
Qed.

Lemma apply_manual_present (a : Adapter) dp k :
  is_Some (objects (apply_manual a dp) !! k)
  <-> is_Some (objects a !! k) \/ (manual_ga dp <> [] /\ k = manual_id (manual_ga dp)).
Proof.
  unfold apply_manual. destruct (manual_ga dp) as [|c r] eqn:E.
  - split; [auto | intros [Hk | [Hne _]]; [exact Hk | contradiction]].
  - rewrite upsert_present. cbn [id manual_entry].
    split; (intros [Hk | Hr]; [left; exact Hk | right]).
    + split; [discriminate | exact Hr].
    + destruct Hr as [_ Hr]. exact Hr.
Qed.

Lemma manual_loop_present list : forall (a : Adapter) k,
  is_Some (objects (foldl apply_manual a list) !! k)
  <-> is_Some (objects a !! k)
      \/ exists dp, dp ∈ list /\ manual_ga dp <> [] /\ k = manual_id (manual_ga dp).
Proof.
  induction list as [|dp list IH]; intros a k; simpl.
  - split; [auto | intros [Hk | (dp & Hin & _)]; [exact Hk | inversion Hin]].
  - rewrite IH, apply_manual_present. split.
    + intros [[Hk | Hd] | (dp' & Hin & Hd)]; [left; exact Hk | right ..].
      * exists dp. split; [left | exact Hd].
      * exists dp'. split; [right; exact Hin | exact Hd].
    + intros [Hk | (dp' & Hin & Hd)]; [left; left; exact Hk|].
      apply elem_of_cons in Hin as [-> | Hin]; [left; right; exact Hd|].
      right. exists dp'. split; assumption.
Qed.

(** Without configured datapoints nothing is created, not even the two
    channels.  Otherwise the objects present afterwards are those present
    before, the channels ["ga"] and ["ga._manual"], and one object per
    datapoint whose address is not blank; a datapoint with a blank address
    creates nothing.  The identifier of a datapoint has exactly these two
    channels above it. *)
Theorem manual_datapoints (list : list ManualDatapoint) (a : Adapter) :
  applyManualDatapoints [] a = a
  /\ (list <> [] ->
      forall k,
        is_Some (objects (applyManualDatapoints list a) !! k)
        <-> is_Some (objects a !! k) \/ k = str "ga" \/ k = str "ga._manual"
            \/ exists dp, dp ∈ list /\ manual_ga dp <> []
                          /\ k = manual_id (manual_ga dp))
  /\ (forall ga,
        Codec.split_on dot (manual_id ga)
        = [str "ga"; str "_manual";
           KnxUtils.sanitizeIdSegment (JString (replace_slashes ga))]).
Proof.
  split; [reflexivity|]. split.
  - intros Hne k. destruct list as [|dp0 list']; [contradiction|].
    unfold applyManualDatapoints.
    rewrite manual_loop_present, !created_present. tauto.
  - intros ga. unfold manual_id.
    change (str "ga._manual." ++ KnxUtils.sanitizeIdSegment (JString (replace_slashes ga)))
      with (join [str "ga"; str "_manual";
                  KnxUtils.sanitizeIdSegment (JString (replace_slashes ga))]).
    apply EntryFacts.split_join; [discriminate|].
    constructor; [repeat constructor; discriminate|].
    constructor; [repeat constructor; discriminate|].
    constructor; [apply SanitizeFacts.segment_dot_free | constructor].
Qed.

End Manual.

Section Persist.
Context {rt : JsRuntime} {tp : Transport}.

Lemma ensure_keeps stateIdRel (a : Adapter) k :
  is_Some (objects a !! k) -> is_Some (objects (ensureChannelsForState stateIdRel a) !! k).
Proof.
  intros [o Ho]. exists o. unfold ensureChannelsForState.
  destruct (length _ <=? 1)%nat; [exact Ho | apply ObjectFacts.channel_loop_keeps, Ho].
Qed.

Lemma ensure_frame stateIdRel (a : Adapter) :
  states (ensureChannelsForState stateIdRel a) = states a
  /\ txQueue (ensureChannelsForState stateIdRel a) = txQueue a
  /\ metaByStateId (ensureChannelsForState stateIdRel a) = metaByStateId a.
Proof.
  unfold ensureChannelsForState. destruct (length _ <=? 1)%nat; [auto|].
  generalize (@nil N) as prefix. revert a.
  induction (Codec.split_on dot stateIdRel) as [|seg rest IH]; intros a prefix; [auto|].
  destruct rest as [|seg' rest']; [auto|].
  rewrite ObjectFacts.channel_loop_step by discriminate.
  destruct (IH (setObjectNotExists
                  (match prefix with [] => seg | _ => prefix ++ dot :: seg end)
                  (channel seg) a)
               (match prefix with [] => seg | _ => prefix ++ dot :: seg end))
    as (S1 & Q1 & M1).
  rewrite S1, Q1, M1. unfold setObjectNotExists.
  destruct (objects a !! _); auto.
Qed.

Lemma upsert_frame (entry : ImportEntry) (a : Adapter) :
  states (upsertGaState entry a) = states a
  /\ txQueue (upsertGaState entry a) = txQueue a
  /\ metaByStateId (upsertGaState entry a) = metaByStateId a.
Proof.
  destruct (ObjectFacts.upsert_form entry) as (c & n & _ & _ & _ & Hform).
  rewrite Hform. auto.
Qed.

(** The loop that persists the entries never removes an object: what existed
    before still exists, every entry has an object under its identifier
    afterwards, and the state store, the queue and the runtime mapping are
    not touched (the mapping only changes with the next rebuild). *)
Theorem entries_are_persisted (entries : list ImportEntry) (a : Adapter) :
  (forall k, is_Some (objects a !! k) -> is_Some (objects (persist_entries entries a) !! k))
  /\ (forall e, e ∈ entries -> is_Some (objects (persist_entries entries a) !! id e))
  /\ states (persist_entries entries a) = states a
  /\ txQueue (persist_entries entries a) = txQueue a
  /\ metaByStateId (persist_entries entries a) = metaByStateId a.
Proof.
  unfold persist_entries. revert a.
  induction entries as [|e0 entries IH]; intros a; simpl.
  - repeat split; auto. intros e He. inversion He.
  - destruct (IH (upsertGaState e0 (ensureChannelsForState (id e0) a)))
      as (K & E & S1 & Q1 & M1).
    destruct (upsert_frame e0 (ensureChannelsForState (id e0) a)) as (S2 & Q2 & M2).
    destruct (ensure_frame (id e0) a) as (S3 & Q3 & M3).
    split; [|split; [|split; [|split]]].
    + intros k Hk. apply K, upsert_present. left. apply ensure_keeps, Hk.
    + intros e He. apply elem_of_cons in He as [-> | He]; [|apply E, He].
      apply K, upsert_present. right. reflexivity.
    + congruence.
    + congruence.
    + congruence.
Qed.

End Persist.

(** The datapoint with blanks around ["1/2/3"] is stored under
    ["ga._manual.1_2_3"]; the one without address is skipped. *)
Example manual_sample :
  dom (objects (applyManualDatapoints (rt := Sample.runtime)
                  [Sample.manual_lamp; Sample.manual_blank] Sample.instance))
  = {[ str "ga"; str "ga._manual"; str "ga._manual.1_2_3" ]}.
Proof. vm_compute. reflexivity. Qed.

End ImportFacts.
